(** * Entangld: the shared-memory qubit register of [qubit.cpp]

    A shallow embedding of [struct QubitState], [class Qubit] and
    [formGHZGroup], and the properties of the register that the design
    document states about them.

    Conventions of the embedding:
    - [double] is a carrier [D] with the operations the code uses
      (class [Double]); the instance the program runs on is IEEE binary64
      (primitive floats);
    - fixed-width unsigned integers are [Z], wrap-around written out where
      the code can wrap ([uint64_t] subtraction in the decoherence test);
    - POSIX shared memory is a table [shm] from object keys to segments and
      a store [mem] from segments to records: a [Qubit] object keeps the
      segment it mapped, peers are resolved by name at propagation time;
      a name reaches its object as glibc's [shm_open] reaches it
      ([shm_key]);
    - the clock reading [nowMs()] and the uniform draw behind
      [std::bernoulli_distribution] are explicit arguments;
    - every public method runs under the instance mutex, so one call is one
      atomic transition of the world; the decoherence thread contributes
      the transition [decohere_tick]. *)

From Stdlib Require Import ZArith Floats Reals Lra Ascii String.
From stdpp Require Import gmap strings list.

Local Open Scope Z_scope.

(** ** The carrier of [double] *)

Class Double (D : Type) : Type := {
  d0 : D;                      (* 0.0 *)
  d1 : D;                      (* 1.0 *)
  M_SQRT2 : D;                 (* <cmath> *)
  dadd : D → D → D;
  dsub : D → D → D;
  dmul : D → D → D;
  ddiv : D → D → D;
  dneg : D → D;
  dltb : D → D → bool
}.

(** IEEE binary64, the type the program computes with.  [M_SQRT2] is the
    double nearest to the square root of two. *)
#[export] Instance binary64 : Double float := {|
  d0 := 0%float;
  d1 := 1%float;
  M_SQRT2 := 0x1.6a09e667f3bcdp+0%float;
  dadd := PrimFloat.add;
  dsub := PrimFloat.sub;
  dmul := PrimFloat.mul;
  ddiv := PrimFloat.div;
  dneg := PrimFloat.opp;
  dltb := PrimFloat.ltb
|}.

(** The reals as a second carrier: the same expressions without rounding,
    overflow or NaN.  This is not the arithmetic of the program: a property
    over it is stated next to its binary64 version only. *)
#[export] Instance exact_arith : Double R := {|
  d0 := 0%R;
  d1 := 1%R;
  M_SQRT2 := sqrt 2;
  dadd := Rplus;
  dsub := Rminus;
  dmul := Rmult;
  ddiv := Rdiv;
  dneg := Ropp;
  dltb := fun x y => if Rlt_dec x y then true else false
|}.

(** ** C strings *)

(** [strncpy n src]: the C string that [strncpy(dst, src.c_str(), n)]
    leaves in a buffer whose byte [n] is NUL: the characters of [src] before
    its first NUL, at most [n] of them.  ([links[i]] has 64 bytes, the code
    copies 63, and byte 63 is never written after the zero fill.) *)
Fixpoint strncpy (n : nat) (src : string) : string :=
  match n, src with
  | S n', String c rest =>
      if Ascii.eqb c Ascii.zero then EmptyString
      else String c (strncpy n' rest)
  | _, _ => EmptyString
  end.

(** ** Names of shared-memory objects *)

(** [s.c_str()]: the characters before the first NUL. *)
Definition c_str (s : string) : string := strncpy (String.length s) s.

Fixpoint strip_slashes (s : string) : string :=
  match s with
  | String c rest => if Ascii.eqb c "/" then strip_slashes rest else s
  | EmptyString => s
  end.

Fixpoint has_slash (s : string) : bool :=
  match s with
  | EmptyString => false
  | String c rest => Ascii.eqb c "/" || has_slash rest
  end.

Definition NAME_MAX : nat := 255.

(** The file under [/dev/shm] that glibc's [shm_open] and [shm_unlink]
    make of a name ([__shm_get_name] of release 2.34 and later): leading
    slashes are skipped, and a name that is then empty, still holds a slash,
    or does not fit the buffer of [NAME_MAX + 4] characters is refused. *)
Definition shm_path (name : string) : option string :=
  let k := strip_slashes (c_str name) in
  if (String.length k =? 0)%nat || has_slash k
     || (NAME_MAX + 4 <? String.length k)%nat
  then None else Some k.

(** The object a name stands for: the file of the name, unless the file
    system refuses it as longer than [NAME_MAX]. *)
Definition shm_key (name : string) : option string :=
  match shm_path name with
  | Some k => if (String.length k <=? NAME_MAX)%nat then Some k else None
  | None => None
  end.

(** The values of [errno] that [shm_unlink] leaves, and their [strerror]. *)
Inductive Errno : Type := ENOENT | ENAMETOOLONG.

Definition strerror (e : Errno) : string :=
  match e with
  | ENOENT => "No such file or directory"
  | ENAMETOOLONG => "File name too long"
  end.

(** ** [struct QubitState] *)

Section Register.
Context {D : Type} `{Double D}.

(** [links] is the array [char links[4][64]], each slot read as a C string. *)
Record QubitState : Type := mkState {
  alpha_real : D;
  alpha_imag : D;
  beta_real : D;
  beta_imag : D;
  measured : Z;                (* uint8_t: 0, 1, or 2 = superposed *)
  links : list string;
  link_count : Z;              (* uint32_t *)
  task_id : Z;                 (* uint32_t *)
  created_at : Z;              (* uint64_t, ms *)
  decohere_timeout_ms : Z      (* uint64_t *)
}.

Definition set_amplitudes (ar ai br bi : D) (s : QubitState) : QubitState :=
  mkState ar ai br bi (measured s) (links s) (link_count s) (task_id s)
          (created_at s) (decohere_timeout_ms s).

Definition set_beta (br bi : D) (s : QubitState) : QubitState :=
  set_amplitudes (alpha_real s) (alpha_imag s) br bi s.

Definition set_measured (m : Z) (s : QubitState) : QubitState :=
  mkState (alpha_real s) (alpha_imag s) (beta_real s) (beta_imag s) m
          (links s) (link_count s) (task_id s) (created_at s)
          (decohere_timeout_ms s).

Definition set_links (l : list string) (s : QubitState) : QubitState :=
  mkState (alpha_real s) (alpha_imag s) (beta_real s) (beta_imag s)
          (measured s) l (link_count s) (task_id s) (created_at s)
          (decohere_timeout_ms s).

Definition set_link_count (n : Z) (s : QubitState) : QubitState :=
  mkState (alpha_real s) (alpha_imag s) (beta_real s) (beta_imag s)
          (measured s) (links s) n (task_id s) (created_at s)
          (decohere_timeout_ms s).

Definition set_task_id (t : Z) (s : QubitState) : QubitState :=
  mkState (alpha_real s) (alpha_imag s) (beta_real s) (beta_imag s)
          (measured s) (links s) (link_count s) t (created_at s)
          (decohere_timeout_ms s).

Definition set_clock (now timeout : Z) (s : QubitState) : QubitState :=
  mkState (alpha_real s) (alpha_imag s) (beta_real s) (beta_imag s)
          (measured s) (links s) (link_count s) (task_id s) now timeout.

(** [memset(state, 0, sizeof(QubitState))], and a segment fresh from
    [ftruncate]. *)
Definition zero_state : QubitState :=
  mkState d0 d0 d0 d0 0 (replicate 4 EmptyString) 0 0 0 0.

#[export] Instance QubitState_inhabited : Inhabited QubitState :=
  populate zero_state.

(** The peer names the loops over [link_count] read:
    [links[0] .. links[link_count-1]].  ([link_count] never exceeds 4, see
    [reachable_links_ok]; beyond it the C loop would leave the array.) *)
Definition stored_links (s : QubitState) : list string :=
  take (Z.to_nat (link_count s)) (links s).

(** The four amplitude components, in declaration order. *)
Definition amplitudes (s : QubitState) : D * D * D * D :=
  (alpha_real s, alpha_imag s, beta_real s, beta_imag s).

(** ** The world: shared-memory name space, segments, standard error *)

(** One [shm_open] of a peer, as issued by [propagateToLinks]: the name and
    whether a mapping was obtained. *)
Inductive Event : Type :=
| PeerOpen (peer : string) (mapped : bool).

Record World : Type := mkWorld {
  shm : gmap string nat;       (* shared-memory objects, by key *)
  mem : gmap nat QubitState;   (* contents of each segment *)
  unmappable : gset nat;       (* segments on which mmap fails *)
  cerr : list string;          (* lines written to std::cerr *)
  opens : list Event           (* peers opened by propagation, oldest first *)
}.

Definition set_mem (m : gmap nat QubitState) (w : World) : World :=
  mkWorld (shm w) m (unmappable w) (cerr w) (opens w).

Definition log_cerr (line : string) (w : World) : World :=
  mkWorld (shm w) (mem w) (unmappable w) (cerr w ++ [line]) (opens w).

Definition log_open (e : Event) (w : World) : World :=
  mkWorld (shm w) (mem w) (unmappable w) (cerr w) (opens w ++ [e]).

Definition empty_world : World := mkWorld ∅ ∅ ∅ [] [].

(** ** [class Qubit] *)

(** The members of a [Qubit] object that the methods read: its name, the
    constructor arguments, and [state], the segment it mapped.  (The members
    [task_id] and [decohere_timeout] of the class are [q_task_id] and
    [decohere_timeout] here; the record fields of the same names belong to
    [QubitState].) *)
Record Qubit : Type := mkQubit {
  shm_name : string;
  q_task_id : Z;
  decohere_timeout : Z;
  state : nat
}.

(** [*state] and an assignment through [state]. *)
Definition deref (q : Qubit) (w : World) : QubitState := mem w !!! state q.

Definition store (q : Qubit) (s : QubitState) (w : World) : World :=
  set_mem (<[state q := s]> (mem w)) w.

Definition modify (q : Qubit) (f : QubitState → QubitState) (w : World)
  : World :=
  store q (f (deref q w)) w.

Definition updateTimestamp (q : Qubit) (now : Z) : World → World :=
  modify q (set_clock now (decohere_timeout q)).

Definition resetLinks (q : Qubit) : World → World :=
  modify q (fun s =>
    set_links (foldl (fun l i => <[i := EmptyString]> l) (links s) (seq 0 4))
              (set_link_count 0 s)).

Definition norm (r i : D) : D := dadd (dmul r r) (dmul i i).

(** [std::bernoulli_distribution dist(p); dist(rng)] converted to [uint8_t]:
    the generator yields a uniform draw [u] of [0,1) and the sample is
    [u < p]. *)
Definition bernoulli (p u : D) : Z := if dltb u p then 1 else 0.

(** The amplitudes [measure] writes for an outcome. *)
Definition collapse (result : Z) (s : QubitState) : QubitState :=
  if result =? 0 then set_amplitudes d1 d0 d0 d0 s
  else set_amplitudes d0 d0 d1 d0 s.

(** The segment a name reaches: an object bound under the very spelling,
    or else the object under the name's key.  (Constructors bind keys only,
    so in every reachable world the two agree.) *)
Definition resolve (w : World) (name : string) : option nat :=
  match shm w !! name with
  | Some seg => Some seg
  | None =>
      match shm_key name with
      | Some k => shm w !! k
      | None => None
      end
  end.

(** What [propagateToLinks] gets for a peer name: [shm_open] without
    [O_CREAT] fails on a name that reaches no object ([fd < 0]), and [mmap]
    may fail ([MAP_FAILED]); otherwise the peer's segment is mapped. *)
Definition open_peer (w : World) (peer : string) : option nat :=
  match resolve w peer with
  | None => None
  | Some seg => if decide (seg ∈ unmappable w) then None else Some seg
  end.

(** One iteration of the loop of [propagateToLinks]: a peer that cannot be
    opened is passed over ([continue]), otherwise its [measured] is
    overwritten through the temporary mapping. *)
Definition notify (result : Z) (w : World) (peer : string) : World :=
  match open_peer w peer with
  | None => log_open (PeerOpen peer false) w
  | Some seg =>
      log_open (PeerOpen peer true)
        (set_mem (<[seg := set_measured result (mem w !!! seg)]> (mem w)) w)
  end.

(** The loop reads [link_count] and [links] of the caller's record at each
    iteration; its body writes [measured] only ([notify_links] below), so
    the names are those stored at loop entry. *)
Definition propagateToLinks (q : Qubit) (result : Z) (w : World) : World :=
  foldl (notify result) w (stored_links (deref q w)).

Definition initSuperposition (q : Qubit) (now : Z) (w : World) : World :=
  let w1 := modify q (fun s =>
              set_measured 2
                (set_amplitudes (ddiv d1 M_SQRT2) d0 (ddiv d1 M_SQRT2) d0 s))
              w in
  updateTimestamp q now (resetLinks q w1).

Definition measure (q : Qubit) (now : Z) (u : D) (w : World) : Z * World :=
  let s := deref q w in
  if negb (measured s =? 2) then (measured s, w)
  else
    let p1 := norm (beta_real s) (beta_imag s) in
    let result := bernoulli p1 u in
    let w1 := modify q (set_measured result) w in
    let w2 := modify q (collapse result) w1 in
    let w3 := propagateToLinks q result w2 in
    (result, updateTimestamp q now w3).

Definition applyGate (q : Qubit) (gate : Ascii.ascii) (now : Z) (w : World)
  : World :=
  let s := deref q w in
  if negb (measured s =? 2) then w
  else
    let ar := alpha_real s in let ai := alpha_imag s in
    let br := beta_real s in let bi := beta_imag s in
    let w1 :=
      if Ascii.eqb gate "H"%char then
        modify q (set_amplitudes (ddiv (dadd ar br) M_SQRT2)
                                 (ddiv (dadd ai bi) M_SQRT2)
                                 (ddiv (dsub ar br) M_SQRT2)
                                 (ddiv (dsub ai bi) M_SQRT2)) w
      else if Ascii.eqb gate "X"%char then
        modify q (set_amplitudes br bi ar ai) w
      else if Ascii.eqb gate "Z"%char then
        modify q (set_beta (dneg br) (dneg bi)) w
      else
        log_cerr ("Unknown gate: " +:+ String gate EmptyString) w in
    updateTimestamp q now w1.

(** [for (i = 0; i < n; ++i) strncpy(state->links[i], peers[i].c_str(), 63)] *)
Fixpoint copy_links (i : nat) (peers : list string) (l : list string)
  : list string :=
  match peers with
  | [] => l
  | p :: peers' => copy_links (S i) peers' (<[i := strncpy 63 p]> l)
  end.

Definition entangle (q : Qubit) (peers : list string) (w : World) : World :=
  let n := Nat.min (length peers) 4 in
  let w1 := modify q (fun s =>
              set_links (copy_links 0 (take n peers) (links s)) s) w in
  modify q (set_link_count (Z.of_nat n)) w1.

Definition setState (q : Qubit) (ar ai br bi : D) (now : Z) (w : World)
  : World :=
  updateTimestamp q now
    (modify q (fun s => set_measured 2 (set_amplitudes ar ai br bi s)) w).

Definition isMeasured (q : Qubit) (w : World) : bool :=
  negb (measured (deref q w) =? 2).

Definition getMeasurement (q : Qubit) (w : World) : Z :=
  measured (deref q w).

(** [shm_open(name, O_RDWR | O_CREAT)], [ftruncate] and [mmap] of the
    constructor: a name that reaches an object opens it; otherwise a new
    zero-filled segment is bound to the name's key, and a name without a
    key makes [shm_open] fail.  A failed [shm_open] or [mmap] ends the
    process ([perror], [exit(1)]) and no object exists. *)
Definition openOrCreate (name : string) (w : World) : option (nat * World) :=
  let opened :=
    match resolve w name with
    | Some seg => Some (seg, w)
    | None =>
        match shm_key name with
        | None => None
        | Some k =>
            let seg := fresh (dom (mem w)) in
            Some (seg, mkWorld (<[k := seg]> (shm w))
                               (<[seg := zero_state]> (mem w))
                               (unmappable w) (cerr w) (opens w))
        end
    end in
  match opened with
  | None => None
  | Some (seg, w1) =>
      if decide (seg ∈ unmappable w1) then None else Some (seg, w1)
  end.

Definition initHeader (q : Qubit) (now : Z) (w : World) : World :=
  if negb (task_id (deref q w) =? q_task_id q) then
    updateTimestamp q now
      (modify q (set_task_id (q_task_id q)) (store q zero_state w))
  else w.

(** [Qubit(name, taskId, decohereTimeoutMs)]. *)
Definition Qubit_new (name : string) (taskId decohereTimeoutMs now : Z)
  (w : World) : option (Qubit * World) :=
  match openOrCreate name w with
  | None => None
  | Some (seg, w1) =>
      let q := mkQubit name taskId decohereTimeoutMs seg in
      Some (q, initHeader q now w1)
  end.

(** [shm_unlink(name)]: the object the name reaches loses its binding
    (the call returns 0), mapped segments stay; or the call returns -1 with
    [errno] set: [ENOENT] when the library refuses the name or no object is
    bound to its key, [ENAMETOOLONG] when the file system refuses it. *)
Definition shm_unlink (name : string) (w : World) : Errno + World :=
  let unbind k :=
    mkWorld (delete k (shm w)) (mem w) (unmappable w) (cerr w) (opens w) in
  match shm w !! name with
  | Some _ => inr (unbind name)
  | None =>
      match shm_path name with
      | None => inl ENOENT
      | Some k =>
          if (NAME_MAX <? String.length k)%nat then inl ENAMETOOLONG
          else match shm w !! k with
               | Some _ => inr (unbind k)
               | None => inl ENOENT
               end
      end
  end.

(** [unlink_shm] of the test suite, with the line [perror] writes when
    [shm_unlink] returns -1. *)
Definition unlink_shm (name : string) (w : World) : World :=
  match shm_unlink name w with
  | inl e =>
      log_cerr ("shm_unlink for " +:+ c_str name +:+ ": " +:+ strerror e) w
  | inr w1 => w1
  end.

(** [a - b] on [uint64_t]. *)
Definition sub64 (a b : Z) : Z := (a - b) mod 2 ^ 64.

(** One pass of the body of the decoherence thread, after its sleep, with
    the lock held. *)
Definition decohere_tick (q : Qubit) (now : Z) (u : D) (w : World) : World :=
  let s := deref q w in
  if (measured s =? 2) && (sub64 now (created_at s) >? decohere_timeout_ms s)
  then
    let p1 := norm (beta_real s) (beta_imag s) in
    let w1 := modify q (set_measured (bernoulli p1 u)) w in
    propagateToLinks q (measured (deref q w1)) w1
  else w.

(** ** [formGHZGroup] *)

(** The inner loop: the names of all members but the one at index [i]. *)
Fixpoint collect_peers (i j : nat) (qubits : list Qubit) : list string :=
  match qubits with
  | [] => []
  | qj :: rest =>
      if decide (i = j) then collect_peers i (S j) rest
      else shm_name qj :: collect_peers i (S j) rest
  end.

(** The outer loop from index [i] on; [clock k] is what [nowMs()] returns
    in iteration [k]. *)
Fixpoint ghz_loop (clock : nat → Z) (qubits : list Qubit) (i : nat)
  (todo : list Qubit) (w : World) : World :=
  match todo with
  | [] => w
  | qi :: todo' =>
      let w1 := entangle qi (collect_peers i 0 qubits) w in
      let w2 := setState qi (ddiv d1 M_SQRT2) d0 (ddiv d1 M_SQRT2) d0
                         (clock i) w1 in
      ghz_loop clock qubits (S i) todo' w2
  end.

Definition formGHZGroup (clock : nat → Z) (qubits : list Qubit) (w : World)
  : World :=
  let n := length qubits in
  if (n <? 2)%nat || (5 <? n)%nat then
    log_cerr "GHZ group size must be between 2 and 5" w
  else ghz_loop clock qubits 0 qubits w.

End Register.

Arguments QubitState D : clear implicits.
Arguments World D : clear implicits.

(** ** Reading and writing segments *)

Section Store.
Context {D : Type} `{Double D}.
Implicit Types (q : Qubit) (w : World D) (s : QubitState D).

Lemma deref_store q s w : deref q (store q s w) = s.
Proof. unfold deref, store; simpl. apply lookup_total_insert_eq. Qed.

Lemma mem_store_ne q s w seg :
  seg ≠ state q → mem (store q s w) !!! seg = mem w !!! seg.
Proof. intros Hne. unfold store; simpl. by apply lookup_total_insert_ne. Qed.

Lemma mem_store q s w seg :
  mem (store q s w) !!! seg = if decide (seg = state q) then s else mem w !!! seg.
Proof.
  case_decide as Hseg.
  - subst seg. apply deref_store.
  - by apply mem_store_ne.
Qed.

Lemma deref_modify q f w : deref q (modify q f w) = f (deref q w).
Proof. apply deref_store. Qed.

Lemma mem_modify q f w seg :
  mem (modify q f w) !!! seg
  = if decide (seg = state q) then f (mem w !!! seg) else mem w !!! seg.
Proof.
  unfold modify. rewrite mem_store. case_decide; [by subst|done].
Qed.

Lemma modify_modify q f g w :
  modify q f (modify q g w) = modify q (fun s => f (g s)) w.
Proof.
  unfold modify at 1. rewrite deref_modify.
  unfold modify, store, set_mem; simpl. by rewrite insert_insert_eq.
Qed.

(** A write through [state] touches [mem] only. *)
Lemma modify_frame q f w :
  shm (modify q f w) = shm w ∧ unmappable (modify q f w) = unmappable w
  ∧ cerr (modify q f w) = cerr w ∧ opens (modify q f w) = opens w.
Proof. done. Qed.

Lemma open_peer_modify q f w peer :
  open_peer (modify q f w) peer = open_peer w peer.
Proof. done. Qed.

(** ** Propagation *)

Lemma resolve_bound w name seg :
  shm w !! name = Some seg → resolve w name = Some seg.
Proof. intros Hname. unfold resolve. by rewrite Hname. Qed.

Lemma open_peer_bound w name seg :
  shm w !! name = Some seg → seg ∉ unmappable w →
  open_peer w name = Some seg.
Proof.
  intros Hname Hmap. unfold open_peer. rewrite (resolve_bound w name seg Hname).
  by rewrite decide_False.
Qed.

Lemma open_peer_mappable w name seg :
  open_peer w name = Some seg → seg ∉ unmappable w.
Proof.
  unfold open_peer. destruct (resolve w name) as [seg0|]; [|done].
  destruct (decide (seg0 ∈ unmappable w)); [done|]. by intros [= <-].
Qed.

Lemma open_peer_resolve w name seg :
  open_peer w name = Some seg → resolve w name = Some seg.
Proof.
  unfold open_peer. destruct (resolve w name) as [seg0|]; [|done].
  by destruct (decide (seg0 ∈ unmappable w)).
Qed.

Lemma set_measured_idem r s : set_measured r (set_measured r s) = set_measured r s.
Proof. done. Qed.

Lemma open_peer_notify r w p peer :
  open_peer (notify r w p) peer = open_peer w peer.
Proof. unfold notify. by destruct (open_peer w p). Qed.

Lemma notify_mem r w p seg :
  mem (notify r w p) !!! seg
  = if decide (open_peer w p = Some seg) then set_measured r (mem w !!! seg)
    else mem w !!! seg.
Proof.
  unfold notify. destruct (open_peer w p) as [seg'|] eqn:Hp; simpl.
  - case_decide as Heq.
    + injection Heq as ->. apply lookup_total_insert_eq.
    + apply lookup_total_insert_ne. congruence.
  - done.
Qed.

(** The segments a list of peer names resolves to. *)
Definition reached (w : World D) (peers : list string) : list nat :=
  omap (open_peer w) peers.

(** The record of one [shm_open] per name, in the order of the list. *)
Definition visits (w : World D) (peers : list string) : list Event :=
  (fun p => PeerOpen p (bool_decide (is_Some (open_peer w p)))) <$> peers.

Lemma reached_ext w w' peers :
  (∀ p, open_peer w' p = open_peer w p) → reached w' peers = reached w peers.
Proof.
  intros Hext. unfold reached. induction peers as [|p ps IH]; csimpl; [done|].
  by rewrite Hext, IH.
Qed.

Lemma visits_ext w w' peers :
  (∀ p, open_peer w' p = open_peer w p) → visits w' peers = visits w peers.
Proof.
  intros Hext. unfold visits. apply list_fmap_ext. intros _ p _. by rewrite Hext.
Qed.

Lemma elem_of_reached w peers seg :
  seg ∈ reached w (peers) ↔ ∃ p, p ∈ peers ∧ open_peer w p = Some seg.
Proof. unfold reached. apply list_elem_of_omap. Qed.

Lemma foldl_notify_mem r peers w seg :
  mem (foldl (notify r) w peers) !!! seg
  = if decide (seg ∈ reached w peers) then set_measured r (mem w !!! seg)
    else mem w !!! seg.
Proof.
  revert w. induction peers as [|p ps IH]; intros w.
  - cbn [foldl]. destruct (decide _) as [Hin|]; [|done].
    by apply elem_of_nil in Hin.
  - cbn [foldl]. rewrite IH, notify_mem.
    rewrite (reached_ext w (notify r w p)) by apply open_peer_notify.
    assert (seg ∈ reached w (p :: ps)
            ↔ open_peer w p = Some seg ∨ seg ∈ reached w ps) as Hcons.
    { rewrite !elem_of_reached. split.
      - intros (p' & [->|Hin]%elem_of_cons & Hp'); [by left|right; eauto].
      - intros [Hp|(p' & Hin & Hp')].
        + exists p. split; [apply list_elem_of_here|done].
        + exists p'. split; [by apply list_elem_of_further|done]. }
    destruct (decide (seg ∈ reached w ps)) as [Hps|Hps];
      destruct (decide (open_peer w p = Some seg)) as [Hp|Hp];
      destruct (decide (seg ∈ reached w (p :: ps))) as [Hc|Hc];
      try done; exfalso; tauto.
Qed.

Lemma foldl_notify_frame r peers w :
  let w' := foldl (notify r) w peers in
  shm w' = shm w ∧ unmappable w' = unmappable w ∧ cerr w' = cerr w.
Proof.
  revert w. induction peers as [|p ps IH]; intros w; simpl; [done|].
  destruct (IH (notify r w p)) as (-> & -> & ->).
  unfold notify. by destruct (open_peer w p).
Qed.

Lemma notify_opens r w p :
  opens (notify r w p)
  = opens w ++ [PeerOpen p (bool_decide (is_Some (open_peer w p)))].
Proof.
  unfold notify. by destruct (open_peer w p).
Qed.

Lemma foldl_notify_opens r peers w :
  opens (foldl (notify r) w peers) = opens w ++ visits w peers.
Proof.
  revert w. induction peers as [|p ps IH]; intros w; cbn [foldl].
  - unfold visits. by rewrite fmap_nil, app_nil_r.
  - rewrite IH, notify_opens.
    rewrite (visits_ext w (notify r w p)) by apply open_peer_notify.
    unfold visits. by rewrite fmap_cons, <- app_assoc.
Qed.

(** The loop body writes [measured] only: what the loop of
    [propagateToLinks] reads from the caller's record stays as at entry. *)
Lemma notify_links r w p seg :
  links (mem (notify r w p) !!! seg) = links (mem w !!! seg)
  ∧ link_count (mem (notify r w p) !!! seg) = link_count (mem w !!! seg).
Proof. rewrite notify_mem. by case_decide. Qed.

End Store.

(** ** Measurement and propagation *)

Section Measurement.
Context {D : Type} `{Double D}.
Implicit Types (q : Qubit) (w : World D) (s : QubitState D).

(** [measure] called once per entry of [draws] (clock reading, uniform
    draw), results in call order. *)
Fixpoint measure_many q (draws : list (Z * D)) w : list Z * World D :=
  match draws with
  | [] => ([], w)
  | (now, u) :: rest =>
      let '(r, w1) := measure q now u w in
      let '(rs, w2) := measure_many q rest w1 in
      (r :: rs, w2)
  end.

Lemma bernoulli_bit (p u : D) : bernoulli p u = 0 ∨ bernoulli p u = 1.
Proof. unfold bernoulli. destruct (dltb u p); auto. Qed.

Lemma collapse_measured r s : measured (collapse r s) = measured s.
Proof. unfold collapse. by destruct (r =? 0). Qed.

Lemma collapse_links r s :
  links (collapse r s) = links s ∧ link_count (collapse r s) = link_count s.
Proof. unfold collapse. by destruct (r =? 0). Qed.

Lemma set_measured_collapse r s :
  set_measured r (collapse r (set_measured r s)) = collapse r (set_measured r s).
Proof. unfold collapse. by destruct (r =? 0). Qed.

(** The world [measure] leaves when the register is superposed, step by
    step as in the method body. *)
Lemma measure_superposed_unfold q now u w :
  measured (deref q w) = 2 →
  let s := deref q w in
  let result := bernoulli (norm (beta_real s) (beta_imag s)) u in
  measure q now u w
  = (result,
     updateTimestamp q now
       (propagateToLinks q result
          (modify q (fun s => collapse result (set_measured result s)) w))).
Proof.
  intros Hsup. unfold measure. rewrite Hsup. simpl.
  by rewrite modify_modify.
Qed.

Lemma propagateToLinks_mem q r w seg :
  mem (propagateToLinks q r w) !!! seg
  = if decide (seg ∈ reached w (stored_links (deref q w)))
    then set_measured r (mem w !!! seg) else mem w !!! seg.
Proof. apply foldl_notify_mem. Qed.

(** Every field of a record but [measured]. *)
Lemma set_measured_fields r s :
  measured (set_measured r s) = r
  ∧ (alpha_real (set_measured r s), alpha_imag (set_measured r s),
     beta_real (set_measured r s), beta_imag (set_measured r s),
     links (set_measured r s), link_count (set_measured r s),
     task_id (set_measured r s), created_at (set_measured r s),
     decohere_timeout_ms (set_measured r s))
    = (alpha_real s, alpha_imag s, beta_real s, beta_imag s,
       links s, link_count s, task_id s, created_at s, decohere_timeout_ms s).
Proof. done. Qed.

Lemma reached_bound w peers p seg :
  p ∈ peers → shm w !! p = Some seg → seg ∉ unmappable w →
  seg ∈ reached w peers.
Proof.
  intros Hin Hname Hmap. apply elem_of_reached. exists p.
  split; [done|by apply open_peer_bound].
Qed.

(** C7: [propagateToLinks] opens the first [link_count] names of the
    caller's [links] one after the other, in that order.  A name that cannot
    be opened or mapped is recorded as such and changes nothing, whatever
    precedes or follows it.  Every segment reached has [measured]
    overwritten with the given outcome, whatever its amplitudes, and keeps
    every other field.  All segments not named by the caller's own links
    keep their record, among them those that only a peer's links name; no
    name is bound or released and nothing is written to standard error; and
    what [measure] returns is fixed by the caller's own record and draw,
    whether or not peers can be reached. *)
Theorem propagateToLinks_best_effort_one_hop q result w :
  let s := deref q w in
  let names := take (Z.to_nat (link_count s)) (links s) in
  let w' := propagateToLinks q result w in
  let others := fun r : QubitState D =>
    (alpha_real r, alpha_imag r, beta_real r, beta_imag r, links r,
     link_count r, task_id r, created_at r, decohere_timeout_ms r) in
  opens w'
  = opens w
    ++ ((fun p => PeerOpen p (bool_decide (is_Some (open_peer w p)))) <$> names)
  ∧ (∀ p seg, p ∈ names → shm w !! p = Some seg → seg ∉ unmappable w →
              measured (mem w' !!! seg) = result)
  ∧ (∀ seg, if decide (seg ∈ omap (open_peer w) names)
            then measured (mem w' !!! seg) = result
                 ∧ others (mem w' !!! seg) = others (mem w !!! seg)
            else mem w' !!! seg = mem w !!! seg)
  ∧ (∀ seg, seg ∈ unmappable w → mem w' !!! seg = mem w !!! seg)
  ∧ (∀ seg, (∀ p, p ∈ names → resolve w p ≠ Some seg) →
            mem w' !!! seg = mem w !!! seg)
  ∧ (∀ p seg p2 seg2,
       p ∈ names → open_peer w p = Some seg →
       p2 ∈ take (Z.to_nat (link_count (mem w !!! seg))) (links (mem w !!! seg)) →
       open_peer w p2 = Some seg2 →
       (∀ p', p' ∈ names → open_peer w p' ≠ Some seg2) →
       mem w' !!! seg2 = mem w !!! seg2)
  ∧ shm w' = shm w ∧ unmappable w' = unmappable w ∧ cerr w' = cerr w
  ∧ (∀ now u,
       fst (measure q now u w)
       = if measured s =? 2
         then (if dltb u (dadd (dmul (beta_real s) (beta_real s))
                               (dmul (beta_imag s) (beta_imag s)))
               then 1 else 0)
         else measured s).
Proof.
  intros s names w' others.
  assert (∀ seg, mem w' !!! seg
                 = if decide (seg ∈ reached w names)
                   then set_measured result (mem w !!! seg)
                   else mem w !!! seg) as Hmem
    by (intros seg; apply propagateToLinks_mem).
  assert (∀ seg, (∀ p, p ∈ names → open_peer w p ≠ Some seg) →
                 mem w' !!! seg = mem w !!! seg) as Hskip.
  { intros seg Hnone. rewrite Hmem. destruct (decide _) as [Hin|]; [|done].
    apply elem_of_reached in Hin as (p & Hp & Hopen). by destruct (Hnone p). }
  split; [apply foldl_notify_opens|].
  split.
  { intros p seg Hin Hname Hmap. rewrite Hmem.
    by rewrite decide_True by by apply (reached_bound w names p). }
  split.
  { intros seg. rewrite Hmem. fold (reached w names).
    destruct (decide (seg ∈ reached w names)); [|done].
    apply set_measured_fields. }
  split.
  { intros seg Hun. apply Hskip. intros p _ Hopen.
    by apply open_peer_mappable in Hopen. }
  split.
  { intros seg Hnone. apply Hskip. intros p Hp Hopen.
    by apply (Hnone p Hp), open_peer_resolve. }
  split; [intros p seg p2 seg2 _ _ _ _ Hnone; by apply Hskip|].
  destruct (foldl_notify_frame result names w) as (Hshm & Hun & Herr).
  repeat split; try done.
  intros now u. unfold measure. fold s. by destruct (measured s =? 2).
Qed.

Lemma measure_collapsed q now u w :
  measured (deref q w) ≠ 2 → measure q now u w = (measured (deref q w), w).
Proof.
  intros Hcol. unfold measure.
  destruct (measured (deref q w) =? 2) eqn:E; [|done].
  by apply Z.eqb_eq in E.
Qed.

Lemma measure_many_collapsed q draws w :
  measured (deref q w) ≠ 2 →
  measure_many q draws w = (replicate (length draws) (measured (deref q w)), w).
Proof.
  intros Hcol. induction draws as [|[now u] rest IH]; simpl; [done|].
  by rewrite measure_collapsed, IH.
Qed.

(** C4: on a register that is already collapsed, [measure] returns the
    stored outcome and leaves the whole world as it was: the record with its
    [created_at], every other segment, and the list of opened peers (no
    propagation); so does any number of repeated calls. *)
Theorem measure_collapsed_pure_read q now u w :
  measured (deref q w) ≠ 2 →
  measure q now u w = (measured (deref q w), w)
  ∧ ∀ draws, measure_many q draws w
             = (replicate (length draws) (measured (deref q w)), w).
Proof.
  intros Hcol. split; [by apply measure_collapsed|].
  intros draws. by apply measure_many_collapsed.
Qed.

(** C10: [setState] overwrites the four amplitude components with its
    arguments and sets [measured] to 2 whatever it was before, so a
    collapsed register is superposed again; [links] and [link_count] keep
    their values, and no other segment changes. *)
Theorem setState_overwrites_and_resets q ar ai br bi now w :
  let w' := setState q ar ai br bi now w in
  amplitudes (deref q w') = (ar, ai, br, bi)
  ∧ measured (deref q w') = 2
  ∧ isMeasured q w' = false
  ∧ links (deref q w') = links (deref q w)
  ∧ link_count (deref q w') = link_count (deref q w)
  ∧ stored_links (deref q w') = stored_links (deref q w)
  ∧ (∀ seg, mem w' !!! seg
            = if decide (seg = state q)
              then set_clock now (decohere_timeout q)
                     (set_measured 2 (set_amplitudes ar ai br bi (deref q w)))
              else mem w !!! seg).
Proof.
  intros w'. subst w'. unfold setState, updateTimestamp, isMeasured.
  rewrite modify_modify, deref_modify. repeat split; try done.
  intros seg. rewrite mem_modify. by case_decide; subst.
Qed.

(** The caller's record after [measure] on a superposed register; the
    peers may name the caller's own segment, which then is written twice
    with the same [measured]. *)
Lemma deref_measure_superposed q now u w :
  measured (deref q w) = 2 →
  let s := deref q w in
  let result := bernoulli (norm (beta_real s) (beta_imag s)) u in
  deref q (snd (measure q now u w))
  = set_clock now (decohere_timeout q) (collapse result (set_measured result s)).
Proof.
  intros Hsup s result.
  rewrite (measure_superposed_unfold q now u w Hsup). cbn [snd]. fold s result.
  unfold updateTimestamp. rewrite deref_modify. f_equal.
  unfold deref at 1. rewrite propagateToLinks_mem.
  fold (deref q (modify q (fun s0 => collapse result (set_measured result s0)) w)).
  rewrite deref_modify. fold s.
  case_decide; [apply set_measured_collapse|done].
Qed.

Lemma stored_links_collapse r s :
  stored_links (collapse r (set_measured r s)) = stored_links s.
Proof.
  unfold stored_links.
  by destruct (collapse_links r (set_measured r s)) as [-> ->].
Qed.

(** The other segments and the opened peers after [measure] on a
    superposed register. *)
Lemma mem_measure_superposed q now u w seg :
  measured (deref q w) = 2 → seg ≠ state q →
  let s := deref q w in
  let result := bernoulli (norm (beta_real s) (beta_imag s)) u in
  mem (snd (measure q now u w)) !!! seg
  = if decide (seg ∈ reached w (stored_links s))
    then set_measured result (mem w !!! seg) else mem w !!! seg.
Proof.
  intros Hsup Hne s result.
  rewrite (measure_superposed_unfold q now u w Hsup). cbn [snd]. fold s result.
  unfold updateTimestamp.
  rewrite mem_modify, (decide_False (P := seg = state q)) by done.
  rewrite propagateToLinks_mem, deref_modify. fold s.
  rewrite stored_links_collapse.
  rewrite (reached_ext w (modify q _ w)) by (intros p; apply open_peer_modify).
  rewrite mem_modify.
  by rewrite (decide_False (P := seg = state q)) by done.
Qed.

Lemma opens_measure_superposed q now u w :
  measured (deref q w) = 2 →
  opens (snd (measure q now u w))
  = opens w ++ visits w (stored_links (deref q w)).
Proof.
  intros Hsup.
  rewrite (measure_superposed_unfold q now u w Hsup). cbn [snd].
  unfold updateTimestamp, propagateToLinks.
  change (opens (modify q ?f ?x)) with (opens x).
  rewrite foldl_notify_opens, deref_modify, stored_links_collapse.
  by rewrite (visits_ext w (modify q _ w)) by (intros p; apply open_peer_modify).
Qed.

(** [measure] binds and releases no name, makes no segment unmappable and
    writes nothing to standard error. *)
Lemma measure_frame q now u w :
  shm (snd (measure q now u w)) = shm w
  ∧ unmappable (snd (measure q now u w)) = unmappable w
  ∧ cerr (snd (measure q now u w)) = cerr w.
Proof.
  unfold measure. destruct (negb _); [done|]. cbn [snd].
  unfold updateTimestamp, propagateToLinks.
  match goal with
  | |- context [foldl (notify ?r) ?w0 ?ps] =>
      destruct (foldl_notify_frame r ps w0) as (Hshm & Hun & Herr)
  end.
  done.
Qed.

(** C2: on a superposed register, [measure] takes
    [p1 = beta_real^2 + beta_imag^2], draws the sample [u < p1] and returns
    it as 1 or 0.  Afterwards the register's [measured] is the sample, its
    amplitudes are (0,0,1,0) for 1 and (1,0,0,0) for 0, [created_at] is the
    clock reading and [decohere_timeout_ms] the object's timeout; [links],
    [link_count] and [task_id] are as before.  The first [link_count] names
    of [links] are opened once each, in order; each segment reached has
    [measured] set to the sample and keeps its other fields, every other
    segment keeps its record. *)
Theorem measure_superposed_collapses q now u w :
  measured (deref q w) = 2 →
  let s := deref q w in
  let p1 := dadd (dmul (beta_real s) (beta_real s))
                 (dmul (beta_imag s) (beta_imag s)) in
  let names := take (Z.to_nat (link_count s)) (links s) in
  let w' := snd (measure q now u w) in
  let s' := deref q w' in
  let others := fun r : QubitState D =>
    (alpha_real r, alpha_imag r, beta_real r, beta_imag r, links r,
     link_count r, task_id r, created_at r, decohere_timeout_ms r) in
  fst (measure q now u w) = (if dltb u p1 then 1 else 0)
  ∧ measured s' = (if dltb u p1 then 1 else 0)
  ∧ (alpha_real s', alpha_imag s', beta_real s', beta_imag s')
    = (if dltb u p1 then (d0, d0, d1, d0) else (d1, d0, d0, d0))
  ∧ created_at s' = now
  ∧ decohere_timeout_ms s' = decohere_timeout q
  ∧ links s' = links s ∧ link_count s' = link_count s
  ∧ task_id s' = task_id s
  ∧ (∀ p seg, p ∈ names → shm w !! p = Some seg → seg ∉ unmappable w →
              measured (mem w' !!! seg) = (if dltb u p1 then 1 else 0))
  ∧ (∀ seg, seg ≠ state q →
            if decide (seg ∈ omap (open_peer w) names)
            then measured (mem w' !!! seg) = (if dltb u p1 then 1 else 0)
                 ∧ others (mem w' !!! seg) = others (mem w !!! seg)
            else mem w' !!! seg = mem w !!! seg)
  ∧ opens w'
    = opens w
      ++ ((fun p => PeerOpen p (bool_decide (is_Some (open_peer w p))))
            <$> names)
  ∧ shm w' = shm w ∧ unmappable w' = unmappable w ∧ cerr w' = cerr w.
Proof.
  intros Hsup s p1 names w' s' others.
  pose proof (deref_measure_superposed q now u w Hsup) as Hown.
  cbv zeta in Hown. unfold bernoulli, norm in Hown.
  fold s p1 w' in Hown. fold s' in Hown.
  assert (fst (measure q now u w) = (if dltb u p1 then 1 else 0)) as Hret
    by by rewrite (measure_superposed_unfold q now u w Hsup).
  assert (measured s' = (if dltb u p1 then 1 else 0)) as Hm
    by (rewrite Hown; simpl; by rewrite collapse_measured).
  assert (∀ seg, seg ≠ state q →
            mem w' !!! seg
            = if decide (seg ∈ reached w names)
              then set_measured (if dltb u p1 then 1 else 0) (mem w !!! seg)
              else mem w !!! seg) as Hmem
    by (intros seg Hne; by apply mem_measure_superposed).
  split; [exact Hret|]. split; [exact Hm|].
  split; [rewrite Hown; unfold collapse; by destruct (dltb u p1)|].
  split; [by rewrite Hown|]. split; [by rewrite Hown|].
  destruct (collapse_links (if dltb u p1 then 1 else 0)
              (set_measured (if dltb u p1 then 1 else 0) s)) as [Hl Hc].
  split; [rewrite Hown; simpl; by rewrite Hl|].
  split; [rewrite Hown; simpl; by rewrite Hc|].
  split; [rewrite Hown; unfold collapse; by destruct (dltb u p1)|].
  split.
  { intros p seg Hin Hname Hmap.
    destruct (decide (seg = state q)) as [->|Hne]; [exact Hm|].
    rewrite Hmem by done.
    by rewrite decide_True by by apply (reached_bound w names p). }
  split.
  { intros seg Hne. rewrite Hmem by done. fold (reached w names).
    destruct (decide (seg ∈ reached w names)); [|done].
    apply set_measured_fields. }
  split; [by apply opens_measure_superposed|].
  apply measure_frame.
Qed.

End Measurement.

(** ** Gates *)

Section Gates.
Context {D : Type} `{Double D}.
Implicit Types (q : Qubit) (w : World D) (s : QubitState D).

(** The assignments the [switch] of [applyGate] makes to the record. *)
Definition gate_case (gate : Ascii.ascii) (s : QubitState D) : QubitState D :=
  let ar := alpha_real s in let ai := alpha_imag s in
  let br := beta_real s in let bi := beta_imag s in
  if Ascii.eqb gate "H"%char then
    set_amplitudes (ddiv (dadd ar br) M_SQRT2) (ddiv (dadd ai bi) M_SQRT2)
                   (ddiv (dsub ar br) M_SQRT2) (ddiv (dsub ai bi) M_SQRT2) s
  else if Ascii.eqb gate "X"%char then set_amplitudes br bi ar ai s
  else if Ascii.eqb gate "Z"%char then set_beta (dneg br) (dneg bi) s
  else s.

Definition supported (gate : Ascii.ascii) : bool :=
  Ascii.eqb gate "H"%char || Ascii.eqb gate "X"%char || Ascii.eqb gate "Z"%char.

Definition unknown_gate_line (gate : Ascii.ascii) : string :=
  "Unknown gate: " +:+ String gate EmptyString.

Lemma applyGate_collapsed q gate now w :
  measured (deref q w) ≠ 2 → applyGate q gate now w = w.
Proof.
  intros Hcol. unfold applyGate.
  destruct (measured (deref q w) =? 2) eqn:E; [|done].
  by apply Z.eqb_eq in E.
Qed.

Lemma applyGate_superposed q gate now w :
  measured (deref q w) = 2 →
  applyGate q gate now w
  = updateTimestamp q now
      (if supported gate then modify q (gate_case gate) w
       else log_cerr (unknown_gate_line gate) w).
Proof.
  intros Hsup. unfold applyGate, supported, gate_case. rewrite Hsup.
  cbn [Z.eqb Pos.eqb negb].
  destruct (Ascii.eqb gate "H"); [done|].
  destruct (Ascii.eqb gate "X"); [done|].
  destruct (Ascii.eqb gate "Z"); done.
Qed.

Lemma gate_case_unsupported gate s : supported gate = false → gate_case gate s = s.
Proof.
  unfold supported, gate_case.
  destruct (Ascii.eqb gate "H"); [done|].
  destruct (Ascii.eqb gate "X"); [done|].
  destruct (Ascii.eqb gate "Z"); done.
Qed.

Lemma deref_applyGate_superposed q gate now w :
  measured (deref q w) = 2 →
  deref q (applyGate q gate now w)
  = set_clock now (decohere_timeout q) (gate_case gate (deref q w)).
Proof.
  intros Hsup. rewrite applyGate_superposed by done.
  unfold updateTimestamp. rewrite deref_modify. f_equal.
  destruct (supported gate) eqn:E.
  - by rewrite deref_modify.
  - by rewrite gate_case_unsupported.
Qed.

Lemma gate_case_measured gate s : measured (gate_case gate s) = measured s.
Proof.
  unfold gate_case.
  destruct (Ascii.eqb gate "H"); [done|].
  destruct (Ascii.eqb gate "X"); [done|].
  destruct (Ascii.eqb gate "Z"); done.
Qed.

Lemma applyGate_keeps_superposed q gate now w :
  measured (deref q w) = 2 → measured (deref q (applyGate q gate now w)) = 2.
Proof.
  intros Hsup. rewrite deref_applyGate_superposed by done. simpl.
  by rewrite gate_case_measured.
Qed.


Lemma deref_applyGate_setState q gate ar ai br bi t0 t1 w :
  deref q (applyGate q gate t1 (setState q ar ai br bi t0 w))
  = set_clock t1 (decohere_timeout q)
      (gate_case gate
         (set_clock t0 (decohere_timeout q)
            (set_measured 2 (set_amplitudes ar ai br bi (deref q w))))).
Proof.
  assert (deref q (setState q ar ai br bi t0 w)
          = set_clock t0 (decohere_timeout q)
              (set_measured 2 (set_amplitudes ar ai br bi (deref q w)))) as Hs.
  { unfold setState, updateTimestamp. by rewrite modify_modify, deref_modify. }
  rewrite deref_applyGate_superposed by by rewrite Hs.
  by rewrite Hs.
Qed.

Lemma unsupported_spec gate :
  supported gate = false
  ↔ gate ≠ "H"%char ∧ gate ≠ "X"%char ∧ gate ≠ "Z"%char.
Proof.
  unfold supported. rewrite !orb_false_iff, !Ascii.eqb_neq. tauto.
Qed.

(** C5, as the code has it: for a gate symbol other than H, X and Z,
    [applyGate] on a collapsed register changes nothing and logs nothing; on
    a superposed register it writes one line to standard error and leaves
    amplitudes, [measured], [links], [link_count] and [task_id] as they
    were, but still stamps the record: [created_at] becomes the clock
    reading and [decohere_timeout_ms] the object's timeout.  No other
    segment changes. *)
Theorem applyGate_unknown_logs_and_stamps q gate now w :
  supported gate = false →
  let s := deref q w in
  let w' := applyGate q gate now w in
  if measured s =? 2 then
    w' = updateTimestamp q now (log_cerr (unknown_gate_line gate) w)
    ∧ cerr w' = cerr w ++ [unknown_gate_line gate]
    ∧ deref q w' = set_clock now (decohere_timeout q) s
    ∧ amplitudes (deref q w') = amplitudes s
    ∧ measured (deref q w') = measured s
    ∧ links (deref q w') = links s
    ∧ link_count (deref q w') = link_count s
    ∧ task_id (deref q w') = task_id s
    ∧ created_at (deref q w') = now
    ∧ decohere_timeout_ms (deref q w') = decohere_timeout q
    ∧ (∀ seg, mem w' !!! seg
              = if decide (seg = state q)
                then set_clock now (decohere_timeout q) s else mem w !!! seg)
  else w' = w.
Proof.
  intros Hunk s w'. subst w'.
  destruct (measured s =? 2) eqn:E.
  - apply Z.eqb_eq in E. rewrite applyGate_superposed by done. rewrite Hunk.
    unfold updateTimestamp. rewrite deref_modify.
    change (deref q (log_cerr _ w)) with s.
    repeat split; try done.
    intros seg. rewrite mem_modify. by case_decide; subst.
  - apply applyGate_collapsed. by apply Z.eqb_neq in E.
Qed.

End Gates.

(** ** Gate algebra in binary64 *)

(** Componentwise [==] on [double], and closeness within [eps]. *)
Definition amp_eqb (a b : float * float * float * float) : bool :=
  let '(a1, a2, a3, a4) := a in
  let '(b1, b2, b3, b4) := b in
  PrimFloat.eqb a1 b1 && PrimFloat.eqb a2 b2
  && PrimFloat.eqb a3 b3 && PrimFloat.eqb a4 b4.















(** ** Links *)

Section Links.
Context {D : Type} `{Double D}.
Implicit Types (q : Qubit) (w : World D) (s : QubitState D).

(** The link table of a record is in range: the array has its four slots
    and [link_count] counts some of them. *)
Definition links_ok s : Prop :=
  0 ≤ link_count s ≤ 4 ∧ length (links s) = 4%nat.

Definition world_links_ok w : Prop := ∀ seg, links_ok (mem w !!! seg).

(** The register's own name is not among its stored peers. *)
Definition no_self_reference q w : Prop :=
  shm_name q ∉ stored_links (deref q w).

Lemma strncpy_idem n src : strncpy n (strncpy n src) = strncpy n src.
Proof.
  revert src. induction n as [|n IH]; intros [|c rest]; simpl; try done.
  destruct (Ascii.eqb c Ascii.zero) eqn:E; simpl; [done|].
  by rewrite E, IH.
Qed.

Lemma copy_links_length i peers (l : list string) :
  length (copy_links i peers l) = length l.
Proof.
  revert i l. induction peers as [|p ps IH]; intros i l; simpl; [done|].
  by rewrite IH, length_insert.
Qed.

Lemma copy_links_app (pre : list string) peers (l : list string) :
  (length peers ≤ length l)%nat →
  copy_links (length pre) peers (pre ++ l)
  = pre ++ (strncpy 63 <$> peers) ++ drop (length peers) l.
Proof.
  revert pre l. induction peers as [|p ps IH]; intros pre l Hlen; [done|].
  destruct l as [|x l]; simpl in Hlen; [lia|].
  cbn [copy_links].
  replace (<[length pre := strncpy 63 p]> (pre ++ x :: l))
    with ((pre ++ [strncpy 63 p]) ++ l).
  - replace (S (length pre)) with (length (pre ++ [strncpy 63 p]))
      by (rewrite length_app; simpl; lia).
    rewrite IH by lia. rewrite <- app_assoc. done.
  - rewrite <- app_assoc. simpl.
    replace (length pre) with (length pre + 0)%nat at 1 by lia.
    by rewrite insert_app_r.
Qed.

Lemma copy_links_spec peers (l : list string) :
  (length peers ≤ length l)%nat →
  copy_links 0 peers l = (strncpy 63 <$> peers) ++ drop (length peers) l.
Proof. intros Hlen. by apply (copy_links_app []). Qed.

Lemma take_min_length {A} (l : list A) n :
  take (Nat.min (length l) n) l = take n l.
Proof.
  destruct (decide (length l ≤ n)%nat).
  - rewrite Nat.min_l by done. by rewrite !take_ge by lia.
  - by rewrite Nat.min_r by lia.
Qed.

Lemma deref_entangle q peers w :
  deref q (entangle q peers w)
  = set_link_count (Z.of_nat (Nat.min (length peers) 4))
      (set_links (copy_links 0 (take (Nat.min (length peers) 4) peers)
                             (links (deref q w)))
                 (deref q w)).
Proof. unfold entangle. by rewrite modify_modify, deref_modify. Qed.

Lemma mem_entangle_ne q peers w seg :
  seg ≠ state q → mem (entangle q peers w) !!! seg = mem w !!! seg.
Proof.
  intros Hne. unfold entangle. rewrite modify_modify, mem_modify.
  by rewrite decide_False.
Qed.

(** What [entangle] stores: the first four names, each cut as [strncpy]
    cuts it. *)
Lemma stored_links_entangle q peers w :
  length (links (deref q w)) = 4%nat →
  stored_links (deref q (entangle q peers w)) = strncpy 63 <$> take 4 peers.
Proof.
  intros Hlen. rewrite deref_entangle. unfold stored_links; simpl.
  rewrite Nat2Z.id, take_min_length.
  assert (length (take 4 peers) ≤ 4)%nat as Hn by (rewrite length_take; lia).
  rewrite copy_links_spec by lia.
  rewrite take_app_length'; [done|].
  rewrite length_fmap, length_take. lia.
Qed.

Lemma links_ok_entangle q peers w :
  links_ok (deref q w) → links_ok (deref q (entangle q peers w)).
Proof.
  intros [_ Hlen]. rewrite deref_entangle. split; simpl.
  - lia.
  - by rewrite copy_links_length.
Qed.

Lemma links_ok_zero : links_ok (zero_state (D := D)).
Proof. split; simpl; [lia|done]. Qed.

Lemma world_links_ok_store q s w :
  world_links_ok w → links_ok s → world_links_ok (store q s w).
Proof.
  intros Hw Hs seg. rewrite mem_store. case_decide; [done|apply Hw].
Qed.

Lemma world_links_ok_modify q f w :
  world_links_ok w → (∀ s, links_ok s → links_ok (f s)) →
  world_links_ok (modify q f w).
Proof. intros Hw Hf. apply world_links_ok_store; [done|]. apply Hf, Hw. Qed.

Lemma world_links_ok_propagate q r w :
  world_links_ok w → world_links_ok (propagateToLinks q r w).
Proof.
  intros Hw seg. rewrite propagateToLinks_mem. case_decide; apply Hw.
Qed.

Lemma world_links_ok_updateTimestamp q now w :
  world_links_ok w → world_links_ok (updateTimestamp q now w).
Proof. intros Hw. by apply world_links_ok_modify. Qed.

Lemma world_links_ok_entangle q peers w :
  world_links_ok w → world_links_ok (entangle q peers w).
Proof.
  intros Hw seg. destruct (decide (seg = state q)) as [->|Hne].
  - apply (links_ok_entangle q peers w), Hw.
  - rewrite mem_entangle_ne by done. apply Hw.
Qed.

Lemma world_links_ok_setState q ar ai br bi now w :
  world_links_ok w → world_links_ok (setState q ar ai br bi now w).
Proof.
  intros Hw. apply world_links_ok_updateTimestamp.
  by apply world_links_ok_modify.
Qed.

Lemma world_links_ok_initSuperposition q now w :
  world_links_ok w → world_links_ok (initSuperposition q now w).
Proof.
  intros Hw. apply world_links_ok_updateTimestamp.
  apply world_links_ok_modify; [by apply world_links_ok_modify|].
  intros s [_ Hlen]. split; simpl; [lia|].
  by rewrite !length_insert.
Qed.

Lemma world_links_ok_measure q now u w :
  world_links_ok w → world_links_ok (snd (measure q now u w)).
Proof.
  intros Hw. unfold measure.
  destruct (negb (measured (deref q w) =? 2)); [done|]. simpl.
  apply world_links_ok_updateTimestamp, world_links_ok_propagate.
  apply world_links_ok_modify; [by apply world_links_ok_modify|].
  intros s Hs. unfold links_ok.
  by destruct (collapse_links
                 (bernoulli (norm (beta_real (deref q w)) (beta_imag (deref q w))) u)
                 s) as [-> ->].
Qed.

Lemma world_links_ok_applyGate q gate now w :
  world_links_ok w → world_links_ok (applyGate q gate now w).
Proof.
  intros Hw. unfold applyGate.
  destruct (negb (measured (deref q w) =? 2)); [done|].
  apply world_links_ok_updateTimestamp.
  destruct (Ascii.eqb gate "H"); [by apply world_links_ok_modify|].
  destruct (Ascii.eqb gate "X"); [by apply world_links_ok_modify|].
  destruct (Ascii.eqb gate "Z"); [by apply world_links_ok_modify|done].
Qed.

Lemma world_links_ok_decohere_tick q now u w :
  world_links_ok w → world_links_ok (decohere_tick q now u w).
Proof.
  intros Hw. unfold decohere_tick.
  destruct (_ && _); [|done].
  apply world_links_ok_propagate. by apply world_links_ok_modify.
Qed.

(** The world [openOrCreate] leaves on success: unchanged, or with one new
    zero-filled segment bound to the name's key. *)
Lemma openOrCreate_cases name w seg w1 :
  openOrCreate name w = Some (seg, w1) →
  (seg ∉ unmappable w)
  ∧ ((resolve w name = Some seg ∧ w1 = w)
     ∨ (resolve w name = None ∧ seg = fresh (dom (mem w))
        ∧ ∃ k, shm_key name = Some k
               ∧ w1 = mkWorld (<[k := seg]> (shm w))
                              (<[seg := zero_state]> (mem w))
                              (unmappable w) (cerr w) (opens w))).
Proof.
  unfold openOrCreate.
  destruct (resolve w name) as [seg0|] eqn:Hres.
  - case_decide as Hmap; [done|]. intros [= <- <-]. split; [done|by left].
  - destruct (shm_key name) as [k|] eqn:Hkey; [|done].
    cbn [unmappable]. case_decide as Hmap; [done|]. intros [= <- <-].
    split; [done|]. right. split; [done|]. split; [done|]. by exists k.
Qed.

Lemma world_links_ok_Qubit_new name tid timeout now w q w' :
  world_links_ok w → Qubit_new name tid timeout now w = Some (q, w') →
  world_links_ok w'.
Proof.
  intros Hw. unfold Qubit_new.
  assert (∀ q0 w0, world_links_ok w0 → world_links_ok (initHeader q0 now w0))
    as Hinit.
  { intros q0 w0 Hw0. unfold initHeader.
    destruct (negb _); [|done].
    apply world_links_ok_updateTimestamp.
    apply world_links_ok_modify; [|done].
    apply world_links_ok_store; [done|apply links_ok_zero]. }
  destruct (openOrCreate name w) as [[seg w1]|] eqn:Hopen; [|done].
  intros [= <- <-]. apply Hinit.
  destruct (openOrCreate_cases name w seg w1 Hopen)
    as (_ & [[_ ->] | (_ & _ & k & _ & ->)]); [done|].
  intros seg'. simpl.
  destruct (decide (seg' = seg)) as [->|Hne].
  - rewrite lookup_total_insert_eq. apply links_ok_zero.
  - rewrite lookup_total_insert_ne by done. apply Hw.
Qed.

Lemma world_links_ok_ghz_loop clock qubits i todo w :
  world_links_ok w → world_links_ok (ghz_loop clock qubits i todo w).
Proof.
  revert i w. induction todo as [|qi todo IH]; intros i w Hw; simpl; [done|].
  apply IH. by apply world_links_ok_setState, world_links_ok_entangle.
Qed.

Lemma world_links_ok_formGHZGroup clock qubits w :
  world_links_ok w → world_links_ok (formGHZGroup clock qubits w).
Proof.
  intros Hw. unfold formGHZGroup.
  destruct (_ || _); [done|]. by apply world_links_ok_ghz_loop.
Qed.

End Links.

(** ** The operations of the system, and GHZ groups *)

Section System.
Context {D : Type} `{Double D}.
Implicit Types (q : Qubit) (w : World D) (s : QubitState D).

(** An object's mapping is of a segment that exists. *)
Definition mapped q w : Prop := is_Some (mem w !! state q).

(** One operation on the world: a constructor call, a method call on a
    live object, one firing of an object's decoherence thread, a group
    formation, or the release of a name. *)
Inductive step : World D → World D → Prop :=
| step_new name tid timeout now w q w' :
    Qubit_new name tid timeout now w = Some (q, w') → step w w'
| step_initSuperposition q now w :
    mapped q w → step w (initSuperposition q now w)
| step_measure q now u w :
    mapped q w → step w (snd (measure q now u w))
| step_applyGate q gate now w :
    mapped q w → step w (applyGate q gate now w)
| step_entangle q peers w :
    mapped q w → step w (entangle q peers w)
| step_setState q ar ai br bi now w :
    mapped q w → step w (setState q ar ai br bi now w)
| step_decohere q now u w :
    mapped q w → step w (decohere_tick q now u w)
| step_formGHZGroup clock qubits w :
    Forall (fun q => mapped q w) qubits → step w (formGHZGroup clock qubits w)
| step_unlink name w :
    step w (unlink_shm name w).

Definition reachable (w : World D) : Prop := rtc step empty_world w.

Lemma unlink_shm_mem name w : mem (unlink_shm name w) = mem w.
Proof.
  unfold unlink_shm, shm_unlink.
  destruct (shm w !! name); [done|].
  destruct (shm_path name) as [k|]; [|done].
  destruct (NAME_MAX <? String.length k)%nat; [done|].
  by destruct (shm w !! k).
Qed.

Lemma step_links_ok w w' : step w w' → world_links_ok w → world_links_ok w'.
Proof.
  intros Hstep Hw. destruct Hstep.
  - by eapply world_links_ok_Qubit_new.
  - by apply world_links_ok_initSuperposition.
  - by apply world_links_ok_measure.
  - by apply world_links_ok_applyGate.
  - by apply world_links_ok_entangle.
  - by apply world_links_ok_setState.
  - by apply world_links_ok_decohere_tick.
  - by apply world_links_ok_formGHZGroup.
  - intros seg. rewrite unlink_shm_mem. apply Hw.
Qed.

Lemma reachable_links_ok w : reachable w → world_links_ok w.
Proof.
  unfold reachable. revert w. apply (rtc_ind_r world_links_ok empty_world).
  - intros seg. unfold empty_world; simpl. rewrite lookup_total_empty.
    apply links_ok_zero.
  - intros w1 w2 _ Hstep IH. by eapply step_links_ok.
Qed.

Lemma stored_links_length s : links_ok s → (length (stored_links s) ≤ 4)%nat.
Proof.
  intros [Hc Hlen]. unfold stored_links. rewrite length_take, Hlen. lia.
Qed.

(** *** Members of a group *)

Lemma collect_peers_elem i j qubits name :
  name ∈ collect_peers i j qubits →
  ∃ k qk, qubits !! k = Some qk ∧ i ≠ (j + k)%nat ∧ name = shm_name qk.
Proof.
  revert j. induction qubits as [|qj rest IH]; intros j; simpl.
  - by intros ?%elem_of_nil.
  - case_decide as Hij.
    + intros (k & qk & Hk & Hne & ->)%IH.
      exists (S k), qk. split; [done|]. split; [lia|done].
    + intros [->|Hin]%elem_of_cons.
      * exists 0%nat, qj. split; [done|]. split; [lia|done].
      * apply IH in Hin as (k & qk & Hk & Hne & ->).
        exists (S k), qk. split; [done|]. split; [lia|done].
Qed.

Lemma collect_peers_length i j qubits :
  (length (collect_peers i j qubits) ≤ length qubits)%nat.
Proof.
  revert j. induction qubits as [|qj rest IH]; intros j; simpl; [lia|].
  case_decide; simpl; specialize (IH (S j)); lia.
Qed.

Lemma deref_setState q ar ai br bi now w :
  deref q (setState q ar ai br bi now w)
  = set_clock now (decohere_timeout q)
      (set_measured 2 (set_amplitudes ar ai br bi (deref q w))).
Proof. unfold setState, updateTimestamp. by rewrite modify_modify, deref_modify. Qed.

Lemma mem_setState_ne q ar ai br bi now w seg :
  seg ≠ state q → mem (setState q ar ai br bi now w) !!! seg = mem w !!! seg.
Proof.
  intros Hne. unfold setState, updateTimestamp.
  by rewrite modify_modify, mem_modify, decide_False.
Qed.

(** Iterations for other members leave a member's segment alone. *)
Lemma ghz_loop_frame clock qubits i todo w seg :
  seg ∉ state <$> todo →
  mem (ghz_loop clock qubits i todo w) !!! seg = mem w !!! seg.
Proof.
  revert i w. induction todo as [|qi todo IH]; intros i w Hnot; simpl; [done|].
  rewrite fmap_cons in Hnot. apply not_elem_of_cons in Hnot as [Hne Hnot].
  rewrite IH by done.
  rewrite mem_setState_ne by done. by apply mem_entangle_ne.
Qed.

(** After the loop, the member at index [i + j] stores the names collected
    in its own iteration. *)
Lemma ghz_loop_member clock qubits i todo w j q :
  todo !! j = Some q → NoDup (state <$> todo) → world_links_ok w →
  stored_links (deref q (ghz_loop clock qubits i todo w))
  = strncpy 63 <$> take 4 (collect_peers (i + j) 0 qubits).
Proof.
  revert i w j. induction todo as [|qi todo IH]; intros i w j Hj Hnd Hw.
  - by rewrite lookup_nil in Hj.
  - rewrite fmap_cons in Hnd. apply NoDup_cons in Hnd as [Hfresh Hnd].
    destruct j as [|j]; simpl in Hj.
    + injection Hj as ->. cbn [ghz_loop]. unfold deref.
      rewrite ghz_loop_frame by done.
      fold (deref q
        (setState q (ddiv d1 M_SQRT2) d0 (ddiv d1 M_SQRT2) d0 (clock i)
           (entangle q (collect_peers i 0 qubits) w))).
      rewrite deref_setState, Nat.add_0_r.
      transitivity (stored_links (deref q (entangle q (collect_peers i 0 qubits) w)));
        [done|].
      apply stored_links_entangle, Hw.
    + cbn [ghz_loop]. rewrite IH with (j := j); try done.
      * by replace (S i + j)%nat with (i + S j)%nat by lia.
      * by apply world_links_ok_setState, world_links_ok_entangle.
Qed.

Lemma formGHZGroup_member clock qubits w j q :
  (2 ≤ length qubits ≤ 5)%nat →
  qubits !! j = Some q → NoDup (state <$> qubits) → world_links_ok w →
  stored_links (deref q (formGHZGroup clock qubits w))
  = strncpy 63 <$> collect_peers j 0 qubits.
Proof.
  intros Hn Hj Hnd Hw. unfold formGHZGroup.
  destruct (length qubits <? 2)%nat eqn:E1; [apply Nat.ltb_lt in E1; lia|].
  destruct (5 <? length qubits)%nat eqn:E2; [apply Nat.ltb_lt in E2; lia|].
  cbn [orb]. rewrite (ghz_loop_member clock qubits 0 qubits w j q) by done.
  rewrite Nat.add_0_l, take_ge; [done|].
  pose proof (collect_peers_length j 0 qubits) as Hlen.
  assert (length (collect_peers j 0 qubits) ≠ 5%nat); [|lia].
  intros Hfive.
  (* all five names collected would mean index [j] was not skipped *)
  assert (∀ i k l, (k ≤ i < k + length l)%nat →
            (length (collect_peers i k l) < length l)%nat) as Hskip.
  { intros i k l. revert k. induction l as [|x l IHl]; intros k Hk; simpl in *.
    - lia.
    - case_decide as Hik.
      + pose proof (collect_peers_length i (S k) l). lia.
      + simpl. assert (S k ≤ i < S k + length l)%nat as Hk' by lia.
        specialize (IHl (S k) Hk'). lia. }
  apply lookup_lt_Some in Hj.
  specialize (Hskip j 0%nat qubits). lia.
Qed.

End System.

Section GroupClaims.
Context {D : Type} `{Double D}.
Implicit Types (q : Qubit) (w : World D) (s : QubitState D).

Lemma stored_links_initSuperposition q now w :
  stored_links (deref q (initSuperposition q now w)) = [].
Proof.
  unfold initSuperposition, updateTimestamp, resetLinks.
  by rewrite !modify_modify, deref_modify.
Qed.

Lemma formGHZGroup_no_self_reference clock qubits w j q :
  (2 ≤ length qubits ≤ 5)%nat →
  qubits !! j = Some q →
  NoDup (state <$> qubits) →
  NoDup ((fun m => strncpy 63 (shm_name m)) <$> qubits) →
  world_links_ok w →
  no_self_reference q (formGHZGroup clock qubits w).
Proof.
  intros Hn Hj Hseg Hnames Hw. unfold no_self_reference.
  rewrite (formGHZGroup_member clock qubits w j q) by done.
  intros (name & Hcut & Hin)%list_elem_of_fmap.
  apply collect_peers_elem in Hin as (k & qk & Hk & Hne & ->).
  apply Hne. simpl.
  apply (NoDup_lookup _ j k (strncpy 63 (shm_name q)) Hnames).
  - by rewrite list_lookup_fmap, Hj.
  - rewrite list_lookup_fmap, Hk.
    change (Some (strncpy 63 (shm_name qk)) = Some (strncpy 63 (shm_name q))).
    by rewrite Hcut, strncpy_idem.
Qed.

(** C6, as the code has it: in every world the operations can reach, every
    record has [link_count] between 0 and 4, so at most four stored peers.
    [entangle] stores the first four names it is given, each cut to 63
    characters, without comparing them to the register's own name: the
    stored list is free of the own name exactly when those names are.
    [initSuperposition] empties the list.  [formGHZGroup], on two to five
    objects with distinct segments and names distinct after the cut, gives
    every member the names of the others and never its own. *)
Theorem links_bounded_stored_as_given :
  (∀ w seg, reachable w →
     links_ok (mem w !!! seg) ∧ (length (stored_links (mem w !!! seg)) ≤ 4)%nat)
  ∧ (∀ q peers w, world_links_ok w →
       stored_links (deref q (entangle q peers w)) = strncpy 63 <$> take 4 peers
       ∧ (length (stored_links (deref q (entangle q peers w))) ≤ 4)%nat
       ∧ (no_self_reference q (entangle q peers w)
          ↔ shm_name q ∉ strncpy 63 <$> take 4 peers))
  ∧ (∀ q now w, stored_links (deref q (initSuperposition q now w)) = []
                ∧ no_self_reference q (initSuperposition q now w))
  ∧ (∀ clock qubits w j q,
       (2 ≤ length qubits ≤ 5)%nat →
       qubits !! j = Some q →
       NoDup (state <$> qubits) →
       NoDup ((fun m => strncpy 63 (shm_name m)) <$> qubits) →
       world_links_ok w →
       stored_links (deref q (formGHZGroup clock qubits w))
       = strncpy 63 <$> collect_peers j 0 qubits
       ∧ (length (stored_links (deref q (formGHZGroup clock qubits w))) ≤ 4)%nat
       ∧ no_self_reference q (formGHZGroup clock qubits w)).
Proof.
  split; [|split; [|split]].
  - intros w seg Hreach. pose proof (reachable_links_ok w Hreach seg) as Hok.
    split; [done|]. by apply stored_links_length.
  - intros q peers w Hw.
    pose proof (stored_links_entangle q peers w (proj2 (Hw (state q)))) as Heq.
    split; [done|]. split.
    + apply stored_links_length.
      apply (world_links_ok_entangle q peers w Hw (state q)).
    + unfold no_self_reference. by rewrite Heq.
  - intros q now w. unfold no_self_reference.
    rewrite stored_links_initSuperposition. split; [done|]. apply not_elem_of_nil.
  - intros clock qubits w j q Hn Hj Hseg Hnames Hw.
    split; [by apply formGHZGroup_member|]. split.
    + apply stored_links_length.
      apply (world_links_ok_formGHZGroup clock qubits w Hw (state q)).
    + by eapply formGHZGroup_no_self_reference.
Qed.

(** C8: on a list of fewer than two or more than five objects,
    [formGHZGroup] writes its one line to standard error and returns: no
    segment, name or record changes, so every member reads exactly as
    before. *)
Theorem formGHZGroup_rejects_size clock qubits w :
  (length qubits < 2 ∨ 5 < length qubits)%nat →
  let w' := formGHZGroup clock qubits w in
  w' = log_cerr "GHZ group size must be between 2 and 5" w
  ∧ cerr w' = cerr w ++ ["GHZ group size must be between 2 and 5"%string]
  ∧ mem w' = mem w ∧ shm w' = shm w ∧ opens w' = opens w
  ∧ Forall (fun q => deref q w' = deref q w) qubits.
Proof.
  intros Hsize w'. subst w'. unfold formGHZGroup.
  assert ((length qubits <? 2)%nat || (5 <? length qubits)%nat = true) as ->.
  { apply orb_true_iff. rewrite !Nat.ltb_lt. lia. }
  repeat split; try done. by apply Forall_forall.
Qed.

End GroupClaims.

(** ** Collapsed records and their amplitudes *)

Section Collapse.
Context {D : Type} `{Double D}.
Implicit Types (q : Qubit) (w : World D) (s : QubitState D).

(** The deterministic amplitudes of an outcome: (1,0) for 0, (0,1) for 1,
    each amplitude a (real, imaginary) pair. *)
Definition collapsed_values (outcome : Z) : D * D * D * D :=
  if outcome =? 0 then (d1, d0, d0, d0) else (d0, d0, d1, d0).

(** A record that is not superposed carries the amplitudes of its outcome. *)
Definition frozen s : Prop :=
  measured s ≠ 2 → amplitudes s = collapsed_values (measured s).

Lemma propagateToLinks_amplitudes q r w seg :
  amplitudes (mem (propagateToLinks q r w) !!! seg) = amplitudes (mem w !!! seg).
Proof. rewrite propagateToLinks_mem. by case_decide. Qed.

Lemma propagateToLinks_measured q r w seg :
  measured (mem (propagateToLinks q r w) !!! seg)
  = if decide (seg ∈ reached w (stored_links (deref q w))) then r
    else measured (mem w !!! seg).
Proof. rewrite propagateToLinks_mem. by case_decide. Qed.

(** C1, as the code has it: a register collapsed by its own [measure]
    carries the deterministic amplitudes of its outcome, and a collapsed
    register is left as it is by every gate and every further [measure];
    propagation, though, overwrites [measured] of each peer it reaches and
    leaves the amplitudes of every record as they were. *)
Theorem collapse_freezes_own_register_only :
  (∀ q now u w,
     measured (deref q w) = 2 →
     measured (deref q (snd (measure q now u w))) ≠ 2
     ∧ frozen (deref q (snd (measure q now u w))))
  ∧ (∀ q gate now w,
       measured (deref q w) ≠ 2 → applyGate q gate now w = w)
  ∧ (∀ q now u w,
       measured (deref q w) ≠ 2 → snd (measure q now u w) = w)
  ∧ (∀ q result w seg,
       amplitudes (mem (propagateToLinks q result w) !!! seg)
       = amplitudes (mem w !!! seg)
       ∧ measured (mem (propagateToLinks q result w) !!! seg)
         = if decide (seg ∈ reached w (stored_links (deref q w))) then result
           else measured (mem w !!! seg)).
Proof.
  split; [|split; [|split]].
  - intros q now u w Hsup.
    pose proof (deref_measure_superposed q now u w Hsup) as Hown.
    cbv zeta in Hown. rewrite Hown.
    set (result := bernoulli _ u).
    assert (measured (set_clock now (decohere_timeout q)
                        (collapse result (set_measured result (deref q w))))
            = result) as Hm by (simpl; by rewrite collapse_measured).
    split.
    + rewrite Hm. subst result.
      destruct (bernoulli_bit (norm (beta_real (deref q w)) (beta_imag (deref q w))) u)
        as [-> | ->]; lia.
    + intros _. rewrite Hm. unfold collapsed_values, collapse.
      by destruct (result =? 0).
  - apply applyGate_collapsed.
  - intros q now u w Hcol.
    by rewrite measure_collapsed.
  - intros q result w seg.
    split; [apply propagateToLinks_amplitudes|apply propagateToLinks_measured].
Qed.

End Collapse.

(** ** The decoherence thread against [measure] *)

Section Decoherence.
Context {D : Type} `{Double D}.
Implicit Types (q : Qubit) (w : World D) (s : QubitState D).

(** The condition under which a pass of the thread acts. *)
Definition fires q now w : bool :=
  (measured (deref q w) =? 2)
  && (sub64 now (created_at (deref q w)) >? decohere_timeout_ms (deref q w)).

(** The design document's reading of a pass of the monitor: when it fires
    it is a measurement, "sample an outcome exactly as in [measure] and
    propagate it". *)
Definition decohere_as_measure q now (u : D) w : World D :=
  if fires q now w then snd (measure q now u w) else w.

(** What a firing pass does, in full: the caller's record gets the sample
    in [measured] and nothing else; peers are notified as by [measure]. *)
Lemma decohere_tick_fired q now u w :
  fires q now w = true →
  let s := deref q w in
  let result := bernoulli (norm (beta_real s) (beta_imag s)) u in
  let w' := decohere_tick q now u w in
  deref q w' = set_measured result s
  ∧ (∀ seg, seg ≠ state q →
            mem w' !!! seg
            = if decide (seg ∈ reached w (stored_links s))
              then set_measured result (mem w !!! seg) else mem w !!! seg)
  ∧ opens w' = opens w ++ visits w (stored_links s).
Proof.
  intros Hfires s result w'. subst w'. unfold decohere_tick.
  unfold fires in Hfires. fold s in Hfires. fold s. rewrite Hfires.
  rewrite deref_modify. fold s. fold result.
  change (measured (set_measured result s)) with result.
  set (w1 := modify q (set_measured result) w).
  assert (deref q w1 = set_measured result s) as Hw1
    by (unfold w1; by rewrite deref_modify).
  assert (stored_links (deref q w1) = stored_links s) as Hlinks
    by by rewrite Hw1.
  split; [|split].
  - unfold deref at 1. rewrite propagateToLinks_mem. fold (deref q w1).
    rewrite Hw1. by case_decide.
  - intros seg Hne. rewrite propagateToLinks_mem, Hlinks.
    rewrite (reached_ext w w1) by (intros p; apply open_peer_modify).
    unfold w1. rewrite mem_modify.
    by rewrite (decide_False (P := seg = state q)) by done.
  - unfold propagateToLinks. rewrite foldl_notify_opens, Hlinks.
    by rewrite (visits_ext w w1) by (intros p; apply open_peer_modify).
Qed.

End Decoherence.

(** ** A run of the program: the Bell pair of the test suite, in binary64 *)

Module Scenario.

(** The objects that [Qubit("a", 1, 500)] and [Qubit("b", 1, 500)] are once
    constructed in an empty name space, and the worlds after each
    constructor. *)
Definition qa : Qubit := mkQubit "a" 1 500 0.
Definition qb : Qubit := mkQubit "b" 1 500 1.

Definition fresh_record : QubitState float :=
  set_clock 0 500 (set_task_id 1 zero_state).

Definition w_a : World float :=
  mkWorld {[ "a"%string := 0%nat ]} {[ 0%nat := fresh_record ]} ∅ [] [].

Definition w_ab : World float :=
  mkWorld {[ "a"%string := 0%nat; "b"%string := 1%nat ]}
          {[ 0%nat := fresh_record; 1%nat := fresh_record ]} ∅ [] [].

(** [a] is put to |0>, then H; [b] is put to |0>; each names the other. *)
Definition w1 : World float := setState qa d1 d0 d0 d0 10 w_ab.
Definition w2 : World float := applyGate qa "H" 20 w1.
Definition w3 : World float := setState qb d1 d0 d0 d0 30 w2.
Definition w4 : World float := entangle qa ["b"%string] w3.
Definition bell : World float := entangle qb ["a"%string] w4.

(** The draw under which [a] comes out as 1: [0.25 < |beta|^2]. *)
Definition u : float := 0.25%float.

(** [a] measured at clock 100, before any timeout; and, at clock 521, when
    the timeout of [a] has passed, [a] measured or its thread's pass. *)
Definition measured_a : World float := snd (measure qa 100 u bell).
Definition measured_late : World float := snd (measure qa 521 u bell).
Definition decohered_a : World float := decohere_tick qa 521 u bell.

Ltac is_mapped := vm_compute; eexists; reflexivity.

Lemma constructors :
  Qubit_new "a" 1 500 0 empty_world = Some (qa, w_a)
  ∧ Qubit_new "b" 1 500 0 w_a = Some (qb, w_ab).
Proof. split; vm_compute; reflexivity. Qed.

Lemma bell_reachable : reachable bell.
Proof.
  destruct constructors as [Ha Hb].
  assert (reachable w_ab) as Hab.
  { eapply rtc_l; [exact (step_new _ _ _ _ _ _ _ Ha)|].
    eapply rtc_l; [exact (step_new _ _ _ _ _ _ _ Hb)|]. apply rtc_refl. }
  assert (reachable w1) as H1.
  { eapply rtc_r; [exact Hab|]. apply step_setState. is_mapped. }
  assert (reachable w2) as H2.
  { eapply rtc_r; [exact H1|]. apply step_applyGate. is_mapped. }
  assert (reachable w3) as H3.
  { eapply rtc_r; [exact H2|]. apply step_setState. is_mapped. }
  assert (reachable w4) as H4.
  { eapply rtc_r; [exact H3|]. apply step_entangle. is_mapped. }
  eapply rtc_r; [exact H4|]. apply step_entangle. is_mapped.
Qed.

Lemma bell_records :
  deref qa bell
  = mkState (ddiv d1 M_SQRT2) d0 (ddiv d1 M_SQRT2) d0 2
            ["b"; ""; ""; ""]%string 1 1 20 500
  ∧ deref qb bell
    = mkState d1 d0 d0 d0 2 ["a"; ""; ""; ""]%string 1 1 30 500.
Proof. split; vm_compute; reflexivity. Qed.

Lemma measured_a_reachable : reachable measured_a.
Proof.
  eapply rtc_r; [exact bell_reachable|].
  unfold measured_a. apply step_measure. is_mapped.
Qed.

(** C1 refuted as stated: after [a] is measured in the reachable world
    [bell], the record of its peer [b] reads collapsed to 1 while its
    amplitudes are still those of |0>. *)
Lemma propagation_leaves_peer_amplitudes :
  reachable measured_a
  ∧ fst (measure qa 100 u bell) = 1
  ∧ measured (deref qb measured_a) = 1
  ∧ amplitudes (deref qb measured_a) = (d1, d0, d0, d0)
  ∧ collapsed_values (D := float) 1 = (d0, d0, d1, d0)
  ∧ ¬ frozen (deref qb measured_a).
Proof.
  split; [exact measured_a_reachable|].
  do 4 (split; [vm_compute; reflexivity|]).
  intros Hfrozen.
  assert (measured (deref qb measured_a) ≠ 2) as Hcol by (vm_compute; lia).
  apply Hfrozen in Hcol.
  apply (f_equal (amp_eqb (d1, d0, d0, d0))) in Hcol.
  vm_compute in Hcol. discriminate.
Qed.

(** C5 refuted as stated: an unknown gate on the superposed register [a]
    moves [created_at] from 20 to the clock reading. *)
Lemma unknown_gate_restamps :
  reachable bell
  ∧ supported "Q" = false
  ∧ measured (deref qa bell) = 2
  ∧ created_at (deref qa bell) = 20
  ∧ created_at (deref qa (applyGate qa "Q" 77 bell)) = 77
  ∧ deref qa (applyGate qa "Q" 77 bell) ≠ deref qa bell.
Proof.
  split; [exact bell_reachable|].
  do 4 (split; [vm_compute; reflexivity|]).
  intros Heq. apply (f_equal created_at) in Heq.
  vm_compute in Heq. discriminate.
Qed.

(** C6 refuted as stated: [entangle] given the register's own name stores
    it. *)
Lemma entangle_accepts_own_name :
  reachable (entangle qa ["a"%string] bell)
  ∧ shm_name qa = "a"%string
  ∧ stored_links (deref qa (entangle qa ["a"%string] bell)) = ["a"%string]
  ∧ ¬ no_self_reference qa (entangle qa ["a"%string] bell).
Proof.
  split.
  { eapply rtc_r; [exact bell_reachable|]. apply step_entangle. is_mapped. }
  split; [reflexivity|].
  assert (stored_links (deref qa (entangle qa ["a"%string] bell)) = ["a"%string])
    as Hstored by (vm_compute; reflexivity).
  split; [exact Hstored|].
  intros Hno. apply Hno. rewrite Hstored. apply list_elem_of_here.
Qed.

(** C3 at the failing input: in [bell] at clock 521 the thread of [a]
    fires; [measure] with the same draw leaves [a] with the amplitudes
    (0,0,1,0) and [created_at = 521], the thread leaves the amplitudes of
    the superposition and [created_at = 20].  Outcome, peer record and
    opened peers agree. *)
Theorem decohere_tick_is_not_measure :
  fires qa 521 bell = true
  ∧ decohere_as_measure qa 521 u bell = measured_late
  ∧ deref qa measured_late
    = mkState d0 d0 d1 d0 1 ["b"; ""; ""; ""]%string 1 1 521 500
  ∧ deref qa decohered_a
    = mkState (ddiv d1 M_SQRT2) d0 (ddiv d1 M_SQRT2) d0 1
              ["b"; ""; ""; ""]%string 1 1 20 500
  ∧ deref qb decohered_a = deref qb measured_late
  ∧ opens decohered_a = opens measured_late
  ∧ decohered_a ≠ decohere_as_measure qa 521 u bell.
Proof.
  assert (decohere_as_measure qa 521 u bell = measured_late) as Hspec
    by (vm_compute; reflexivity).
  split; [vm_compute; reflexivity|]. split; [exact Hspec|].
  do 4 (split; [vm_compute; reflexivity|]).
  rewrite Hspec. intros Heq.
  apply (f_equal (fun w => amp_eqb (amplitudes (deref qa w)) (d0, d0, d1, d0)))
    in Heq.
  vm_compute in Heq. discriminate.
Qed.

(** A record fresh from the constructor is zero-filled: it reads as
    collapsed to 0, with all four amplitude components 0. *)
Lemma fresh_record_reads_collapsed :
  measured fresh_record = 0 ∧ amplitudes fresh_record = (d0, d0, d0, d0).
Proof. split; reflexivity. Qed.

(** *** A chain a -> b -> c with one name that cannot be opened *)

Definition qc : Qubit := mkQubit "c" 1 500 2.

Definition w_abc : World float :=
  mkWorld {[ "a"%string := 0%nat; "b"%string := 1%nat; "c"%string := 2%nat ]}
          (<[ 2%nat := fresh_record ]> (mem bell)) ∅ [] [].

Definition chain : World float :=
  entangle qa ["ghost"; "b"]%string
    (entangle qb ["c"%string] (setState qc d1 d0 d0 d0 40 w_abc)).

Lemma third_constructor : Qubit_new "c" 1 500 0 bell = Some (qc, w_abc).
Proof. vm_compute. reflexivity. Qed.

(** The unknown name is passed over, [b] behind it is still reached, and
    [c], a peer of [b] only, is not touched. *)
Lemma propagation_stops_after_one_hop :
  stored_links (deref qa chain) = ["ghost"; "b"]%string
  ∧ stored_links (deref qb chain) = ["c"%string]
  ∧ opens (propagateToLinks qa 1 chain)
    = [PeerOpen "ghost" false; PeerOpen "b" true]
  ∧ measured (deref qb (propagateToLinks qa 1 chain)) = 1
  ∧ deref qc (propagateToLinks qa 1 chain) = deref qc chain
  ∧ measured (deref qc chain) = 2.
Proof.
  do 5 (split; [vm_compute; reflexivity|]). vm_compute; reflexivity.
Qed.

(** *** The theorems with hypotheses, at this run *)

Lemma bell_names :
  take (Z.to_nat (link_count (deref qa bell))) (links (deref qa bell))
  = ["b"%string]
  ∧ shm bell !! "b"%string = Some 1%nat
  ∧ (1%nat ∉ unmappable bell).
Proof.
  split; [vm_compute; reflexivity|]. split; [vm_compute; reflexivity|].
  change (1%nat ∉ (∅ : gset nat)). apply not_elem_of_empty.
Qed.

Lemma measure_superposed_collapses_witness :
  measured (deref qa bell) = 2
  ∧ fst (measure qa 100 0.25%float bell) = 1
  ∧ fst (measure qa 100 0.75%float bell) = 0
  ∧ measured (deref qa measured_a) = 1
  ∧ (alpha_real (deref qa measured_a), alpha_imag (deref qa measured_a),
     beta_real (deref qa measured_a), beta_imag (deref qa measured_a))
    = (0, 0, 1, 0)%float
  ∧ created_at (deref qa measured_a) = 100
  ∧ measured (deref qb measured_a) = 1
  ∧ opens measured_a = [PeerOpen "b" true].
Proof.
  assert (measured (deref qa bell) = 2) as Hsup by (vm_compute; reflexivity).
  destruct bell_names as (Hnames & Hb & Hmap).
  split; [exact Hsup|].
  destruct (measure_superposed_collapses qa 100 0.75%float bell Hsup)
    as (Hret0 & _).
  destruct (measure_superposed_collapses qa 100 u bell Hsup)
    as (Hret & Hm & Hamp & Hclock & _ & _ & _ & _ & Hpin & _ & Hopens & _).
  split; [etrans; [exact Hret|vm_compute; reflexivity]|].
  split; [etrans; [exact Hret0|vm_compute; reflexivity]|].
  split; [etrans; [exact Hm|vm_compute; reflexivity]|].
  split; [etrans; [exact Hamp|vm_compute; reflexivity]|].
  split; [exact Hclock|].
  split.
  - etrans; [|vm_compute; reflexivity].
    apply (Hpin "b"%string 1%nat); [|exact Hb|exact Hmap].
    rewrite Hnames. apply list_elem_of_here.
  - etrans; [exact Hopens|vm_compute; reflexivity].
Defined.

Lemma propagateToLinks_best_effort_one_hop_witness :
  opens (propagateToLinks qa 1 chain)
  = [PeerOpen "ghost" false; PeerOpen "b" true]
  ∧ measured (deref qb chain) = 2
  ∧ measured (deref qb (propagateToLinks qa 1 chain)) = 1
  ∧ deref qc (propagateToLinks qa 1 chain) = deref qc chain
  ∧ fst (measure qa 100 0.25%float chain) = 1.
Proof.
  assert (take (Z.to_nat (link_count (deref qa chain))) (links (deref qa chain))
          = ["ghost"; "b"]%string) as Hnames by (vm_compute; reflexivity).
  assert (shm chain !! "b"%string = Some 1%nat) as Hb
    by (vm_compute; reflexivity).
  assert (1%nat ∉ unmappable chain) as Hmap
    by (change (1%nat ∉ (∅ : gset nat)); apply not_elem_of_empty).
  destruct (propagateToLinks_best_effort_one_hop qa 1 chain)
    as (Hopens & Hpin & _ & _ & _ & Hhop & _ & _ & _ & Hret).
  split; [etrans; [exact Hopens|vm_compute; reflexivity]|].
  split; [vm_compute; reflexivity|].
  split.
  { apply (Hpin "b"%string 1%nat); [|exact Hb|exact Hmap].
    rewrite Hnames. apply list_elem_of_further, list_elem_of_here. }
  split.
  { apply (Hhop "b"%string 1%nat "c"%string 2%nat).
    - rewrite Hnames. apply list_elem_of_further, list_elem_of_here.
    - vm_compute. reflexivity.
    - replace (take _ _) with ["c"%string] by (vm_compute; reflexivity).
      apply list_elem_of_here.
    - vm_compute. reflexivity.
    - intros p'. rewrite Hnames.
      intros [->|[->|Hnil%elem_of_nil]%elem_of_cons]%elem_of_cons;
        [vm_compute; discriminate|vm_compute; discriminate|done]. }
  etrans; [exact (Hret 100 0.25%float)|vm_compute; reflexivity].
Defined.

Lemma measure_collapsed_pure_read_witness :
  measured (deref qa measured_a) ≠ 2
  ∧ measure qa 600 u measured_a = (measured (deref qa measured_a), measured_a).
Proof.
  assert (measured (deref qa measured_a) ≠ 2) as Hcol by (vm_compute; lia).
  split; [exact Hcol|].
  destruct (measure_collapsed_pure_read qa 600 u measured_a Hcol) as [Hone _].
  exact Hone.
Defined.

Lemma applyGate_unknown_logs_and_stamps_witness :
  supported "Q" = false
  ∧ cerr (applyGate qa "Q" 77 bell) = cerr bell ++ [unknown_gate_line "Q"]
  ∧ created_at (deref qa (applyGate qa "Q" 77 bell)) = 77.
Proof.
  assert (supported "Q" = false) as Hunk by reflexivity.
  split; [exact Hunk|].
  pose proof (applyGate_unknown_logs_and_stamps qa "Q" 77 bell Hunk) as Hq.
  cbv zeta in Hq.
  assert ((measured (deref qa bell) =? 2) = true) as Hsup
    by (vm_compute; reflexivity).
  rewrite Hsup in Hq.
  destruct Hq as (_ & Herr & _ & _ & _ & _ & _ & _ & Hclock & _).
  split; [exact Herr|exact Hclock].
Defined.

Lemma formGHZGroup_rejects_size_witness :
  (length [qa] < 2)%nat
  ∧ mem (formGHZGroup (fun _ => 0) [qa] bell) = mem bell
  ∧ (5 < length [qa; qb; qa; qb; qa; qb])%nat
  ∧ mem (formGHZGroup (fun _ => 0) [qa; qb; qa; qb; qa; qb] bell) = mem bell.
Proof.
  assert (length [qa] < 2)%nat as Hone by (simpl; lia).
  assert (5 < length [qa; qb; qa; qb; qa; qb])%nat as Hsix by (simpl; lia).
  split; [exact Hone|].
  destruct (formGHZGroup_rejects_size (fun _ => 0) [qa] bell (or_introl Hone))
    as (_ & _ & Hmem1 & _).
  split; [exact Hmem1|]. split; [exact Hsix|].
  destruct (formGHZGroup_rejects_size (fun _ => 0) [qa; qb; qa; qb; qa; qb]
              bell (or_intror Hsix)) as (_ & _ & Hmem6 & _).
  exact Hmem6.
Defined.

Lemma collapse_freezes_own_register_only_witness :
  measured (deref qa bell) = 2 ∧ frozen (deref qa measured_a).
Proof.
  assert (measured (deref qa bell) = 2) as Hsup by (vm_compute; reflexivity).
  split; [exact Hsup|].
  destruct (collapse_freezes_own_register_only (D := float)) as (Hown & _).
  destruct (Hown qa 100 u bell Hsup) as [_ Hfrozen]. exact Hfrozen.
Defined.




Lemma links_bounded_stored_as_given_witness :
  (2 ≤ length [qa; qb] ≤ 5)%nat
  ∧ stored_links (deref qa (formGHZGroup (fun _ => 0) [qa; qb] bell))
    = strncpy 63 <$> collect_peers 0 0 [qa; qb]
  ∧ no_self_reference qa (formGHZGroup (fun _ => 0) [qa; qb] bell).
Proof.
  assert (2 ≤ length [qa; qb] ≤ 5)%nat as Hsize by (simpl; lia).
  assert (NoDup (state <$> [qa; qb])) as Hseg by (vm_compute; compute_done).
  assert (NoDup ((fun m => strncpy 63 (shm_name m)) <$> [qa; qb])) as Hnames
    by (vm_compute; compute_done).
  pose proof (reachable_links_ok bell bell_reachable) as Hok.
  split; [exact Hsize|].
  destruct (links_bounded_stored_as_given (D := float)) as (_ & _ & _ & Hghz).
  destruct (Hghz (fun _ => 0) [qa; qb] bell 0%nat qa Hsize eq_refl Hseg Hnames Hok)
    as (Hstored & _ & Hself).
  split; [exact Hstored|exact Hself].
Defined.

End Scenario.

(** * Further properties of the register *)

(** ** The constructor: [openOrCreate] and [initHeader] *)

Section Constructor.
Context {D : Type} `{Double D}.
Implicit Types (q : Qubit) (w : World D) (s : QubitState D).

(** The record [initHeader] leaves when the owner differs. *)
Definition stamped_zero (tid now timeout : Z) : QubitState D :=
  set_clock now timeout (set_task_id tid zero_state).

Lemma initHeader_same q now w :
  task_id (deref q w) = q_task_id q → initHeader q now w = w.
Proof. intros Heq. unfold initHeader. by rewrite Heq, Z.eqb_refl. Qed.

Lemma initHeader_other q now w :
  task_id (deref q w) ≠ q_task_id q →
  initHeader q now w
  = store q (stamped_zero (q_task_id q) now (decohere_timeout q)) w.
Proof.
  intros Hne. unfold initHeader.
  apply Z.eqb_neq in Hne. rewrite Hne. cbn [negb].
  unfold updateTimestamp. rewrite modify_modify.
  unfold modify. rewrite deref_store.
  unfold store, set_mem; simpl. by rewrite insert_insert_eq.
Qed.

Lemma initHeader_task_id q now w :
  task_id (deref q (initHeader q now w)) = q_task_id q.
Proof.
  destruct (decide (task_id (deref q w) = q_task_id q)) as [Heq|Hne].
  - by rewrite initHeader_same.
  - rewrite initHeader_other by done. by rewrite deref_store.
Qed.

Lemma initHeader_frame q now w :
  shm (initHeader q now w) = shm w
  ∧ unmappable (initHeader q now w) = unmappable w
  ∧ cerr (initHeader q now w) = cerr w
  ∧ opens (initHeader q now w) = opens w.
Proof. unfold initHeader. by destruct (negb _). Qed.

Lemma Qubit_new_resolved name tid timeout now w seg :
  resolve w name = Some seg → seg ∉ unmappable w →
  Qubit_new name tid timeout now w
  = Some (mkQubit name tid timeout seg,
          initHeader (mkQubit name tid timeout seg) now w).
Proof.
  intros Hname Hmap. unfold Qubit_new, openOrCreate. rewrite Hname.
  by rewrite decide_False.
Qed.

Lemma Qubit_new_existing name tid timeout now w seg :
  shm w !! name = Some seg → seg ∉ unmappable w →
  Qubit_new name tid timeout now w
  = Some (mkQubit name tid timeout seg,
          initHeader (mkQubit name tid timeout seg) now w).
Proof. intros Hname. by apply Qubit_new_resolved, resolve_bound. Qed.

Lemma resolve_after_bind name k seg w :
  resolve w name = None → shm_key name = Some k →
  resolve (mkWorld (<[k := seg]> (shm w)) (<[seg := zero_state]> (mem w))
                   (unmappable w) (cerr w) (opens w)) name
  = Some seg.
Proof.
  intros Hres Hkey. unfold resolve in *. simpl.
  destruct (shm w !! name) as [seg0|] eqn:Hraw; [done|].
  destruct (decide (k = name)) as [->|Hne].
  - by rewrite lookup_insert_eq.
  - rewrite lookup_insert_ne, Hraw, Hkey by done. apply lookup_insert_eq.
Qed.

Lemma openOrCreate_post name w seg w1 :
  openOrCreate name w = Some (seg, w1) →
  resolve w1 name = Some seg ∧ seg ∉ unmappable w1.
Proof.
  intros Hopen.
  destruct (openOrCreate_cases name w seg w1 Hopen)
    as (Hmap & [[Hres ->] | (Hres & _ & k & Hkey & ->)]); [done|].
  split; [by apply resolve_after_bind|done].
Qed.

(** What a successful constructor call guarantees about its object. *)
Lemma Qubit_new_post name tid timeout now w q w' :
  Qubit_new name tid timeout now w = Some (q, w') →
  shm_name q = name ∧ q_task_id q = tid ∧ decohere_timeout q = timeout
  ∧ resolve w' name = Some (state q) ∧ (state q ∉ unmappable w')
  ∧ task_id (deref q w') = tid.
Proof.
  unfold Qubit_new.
  destruct (openOrCreate name w) as [[seg w1]|] eqn:Hopen; [|done].
  intros [= <- <-].
  destruct (openOrCreate_post name w seg w1 Hopen) as [Hname Hmap].
  destruct (initHeader_frame (mkQubit name tid timeout seg) now w1)
    as (Hshm & Hun & _).
  unfold resolve. rewrite Hshm, Hun.
  cbn [shm_name q_task_id decohere_timeout state].
  split; [done|]. split; [done|]. split; [done|].
  split; [done|]. split; [done|].
  apply (initHeader_task_id (mkQubit name tid timeout seg)).
Qed.

(** X1: a second object for a name and task id that an earlier constructor
    call served maps the same segment and leaves the whole world as it is,
    whatever its timeout and the clock: the record is reused verbatim. *)
Theorem Qubit_new_again_reuses name tid timeout now w q w' :
  Qubit_new name tid timeout now w = Some (q, w') →
  ∀ timeout2 now2,
    Qubit_new name tid timeout2 now2 w'
    = Some (mkQubit name tid timeout2 (state q), w').
Proof.
  intros Hnew timeout2 now2.
  destruct (Qubit_new_post _ _ _ _ _ _ _ Hnew)
    as (_ & _ & _ & Hname & Hmap & Htid).
  rewrite (Qubit_new_resolved name tid timeout2 now2 w' (state q)) by done.
  by rewrite initHeader_same.
Qed.

(** X2: opening an existing name under another task id wipes the record:
    it becomes the zero record with the new task id, stamped with the clock
    and the object's timeout.  The register then reads as measured with
    outcome 0 and has no stored peers; names and all other segments are
    untouched. *)
Theorem Qubit_new_other_owner_resets name tid timeout now w seg :
  shm w !! name = Some seg → seg ∉ unmappable w →
  task_id (mem w !!! seg) ≠ tid →
  let q := mkQubit name tid timeout seg in
  let w' := store q (stamped_zero tid now timeout) w in
  Qubit_new name tid timeout now w = Some (q, w')
  ∧ deref q w' = stamped_zero tid now timeout
  ∧ isMeasured q w' = true ∧ getMeasurement q w' = 0
  ∧ stored_links (deref q w') = []
  ∧ shm w' = shm w
  ∧ (∀ seg', seg' ≠ seg → mem w' !!! seg' = mem w !!! seg').
Proof.
  intros Hname Hmap Htid q w'.
  assert (deref q w' = stamped_zero tid now timeout) as Hrec
    by apply deref_store.
  split.
  - rewrite (Qubit_new_existing name tid timeout now w seg) by done.
    by rewrite initHeader_other.
  - split; [done|]. unfold isMeasured, getMeasurement. rewrite Hrec.
    repeat split; try done.
    intros seg' Hne. by apply mem_store_ne.
Qed.




End Constructor.

(** ** Reading back a measurement; entangled pairs *)

Section Readback.
Context {D : Type} `{Double D}.
Implicit Types (q : Qubit) (w : World D) (s : QubitState D).

Lemma measured_after_measure q now u w :
  measured (deref q (snd (measure q now u w))) = fst (measure q now u w)
  ∧ fst (measure q now u w) ≠ 2.
Proof.
  destruct (decide (measured (deref q w) = 2)) as [Hsup|Hcol].
  - pose proof (deref_measure_superposed q now u w Hsup) as Hown.
    cbv zeta in Hown. rewrite Hown. simpl. rewrite collapse_measured.
    rewrite (measure_superposed_unfold q now u w Hsup). simpl.
    split; [done|].
    destruct (bernoulli_bit (norm (beta_real (deref q w)) (beta_imag (deref q w))) u)
      as [-> | ->]; lia.
  - by rewrite measure_collapsed.
Qed.

(** X4: whatever the register's state, after [measure] it reads as
    measured, [getMeasurement] gives the value [measure] returned, and every
    later [measure] returns that value again and changes nothing. *)
Theorem measure_then_read_back q now u w :
  let r := fst (measure q now u w) in
  let w' := snd (measure q now u w) in
  isMeasured q w' = true
  ∧ getMeasurement q w' = r
  ∧ ∀ now2 u2, measure q now2 u2 w' = (r, w').
Proof.
  intros r w'. destruct (measured_after_measure q now u w) as [Hm Hne].
  fold r w' in Hm, Hne.
  unfold isMeasured, getMeasurement. rewrite Hm.
  split; [by apply negb_true_iff, Z.eqb_neq|]. split; [done|].
  intros now2 u2. rewrite measure_collapsed by by rewrite Hm.
  by rewrite Hm.
Qed.

(** The record of a peer that the caller's stored links reach, after the
    caller measured from superposition. *)
Lemma measured_peer_after_measure qa qb now u w p :
  measured (deref qa w) = 2 →
  p ∈ stored_links (deref qa w) → open_peer w p = Some (state qb) →
  measured (deref qb (snd (measure qa now u w))) = fst (measure qa now u w).
Proof.
  intros Hsup Hin Hopen.
  destruct (decide (state qb = state qa)) as [Heq|Hne].
  - unfold deref. rewrite Heq. apply measured_after_measure.
  - unfold deref. rewrite mem_measure_superposed by done.
    rewrite decide_True by (apply elem_of_reached; eauto).
    by rewrite (measure_superposed_unfold qa now u w Hsup).
Qed.

(** X5: if a superposed register [a] stores a name that resolves to the
    segment of [b], then after [a.measure()] returned [r], register [b]
    reads as measured with outcome [r] and [b.measure()] returns [r] without
    changing anything: whatever [b] held before, superposed amplitudes or
    an earlier outcome, is overridden. *)
Theorem measure_forces_peer_outcome qa qb now u w p :
  measured (deref qa w) = 2 →
  p ∈ stored_links (deref qa w) → open_peer w p = Some (state qb) →
  let r := fst (measure qa now u w) in
  let w' := snd (measure qa now u w) in
  (r = 0 ∨ r = 1)
  ∧ isMeasured qb w' = true
  ∧ getMeasurement qb w' = r
  ∧ ∀ now2 u2, measure qb now2 u2 w' = (r, w').
Proof.
  intros Hsup Hin Hopen r w'.
  pose proof (measured_peer_after_measure qa qb now u w p Hsup Hin Hopen) as Hb.
  fold r w' in Hb.
  assert (r = 0 ∨ r = 1) as Hbit.
  { unfold r. rewrite (measure_superposed_unfold qa now u w Hsup).
    apply bernoulli_bit. }
  assert (measured (deref qb w') ≠ 2) as Hcol by (rewrite Hb; lia).
  split; [done|]. unfold isMeasured, getMeasurement. rewrite Hb.
  split; [apply negb_true_iff, Z.eqb_neq; lia|]. split; [done|].
  intros now2 u2. rewrite measure_collapsed by done. by rewrite Hb.
Qed.

(** ** [initSuperposition] and [entangle] *)

Lemma deref_initSuperposition q now w :
  deref q (initSuperposition q now w)
  = set_clock now (decohere_timeout q)
      (set_links (foldl (fun l i => <[i := EmptyString]> l)
                        (links (deref q w)) (seq 0 4))
         (set_link_count 0
            (set_measured 2
               (set_amplitudes (ddiv d1 M_SQRT2) d0 (ddiv d1 M_SQRT2) d0
                  (deref q w))))).
Proof.
  unfold initSuperposition, updateTimestamp, resetLinks.
  by rewrite !modify_modify, deref_modify.
Qed.

Lemma mem_initSuperposition_ne q now w seg :
  seg ≠ state q → mem (initSuperposition q now w) !!! seg = mem w !!! seg.
Proof.
  intros Hne. unfold initSuperposition, updateTimestamp, resetLinks.
  by rewrite !modify_modify, mem_modify, decide_False.
Qed.

Lemma reset_slots (l : list string) :
  length l = 4%nat →
  foldl (fun l i => <[i := EmptyString]> l) l (seq 0 4)
  = replicate 4 EmptyString.
Proof.
  intros Hlen.
  destruct l as [|a [|b [|c [|d [|e l]]]]]; simpl in Hlen; try lia. done.
Qed.

(** X6: [initSuperposition] gives the equal superposition whatever the
    register held, a collapsed outcome included, empties all four link
    slots and stamps the record; a [measure] that follows therefore opens
    no peer and changes no segment but the caller's own. *)
Theorem initSuperposition_forgets_peers q t0 now u w :
  length (links (deref q w)) = 4%nat →
  let w0 := initSuperposition q t0 w in
  let w' := snd (measure q now u w0) in
  amplitudes (deref q w0) = (ddiv d1 M_SQRT2, d0, ddiv d1 M_SQRT2, d0)
  ∧ isMeasured q w0 = false
  ∧ links (deref q w0) = replicate 4 EmptyString
  ∧ link_count (deref q w0) = 0
  ∧ created_at (deref q w0) = t0
  ∧ opens w' = opens w
  ∧ (∀ seg, seg ≠ state q → mem w' !!! seg = mem w !!! seg).
Proof.
  intros Hlen w0 w'.
  pose proof (deref_initSuperposition q t0 w) as Hrec. fold w0 in Hrec.
  assert (measured (deref q w0) = 2) as Hsup by by rewrite Hrec.
  assert (stored_links (deref q w0) = []) as Hnone by by rewrite Hrec.
  split; [by rewrite Hrec|]. split; [unfold isMeasured; by rewrite Hsup|].
  split; [rewrite Hrec; simpl; by apply reset_slots|].
  split; [by rewrite Hrec|]. split; [by rewrite Hrec|].
  split.
  - unfold w'. rewrite opens_measure_superposed by done.
    rewrite Hnone. unfold visits. by rewrite fmap_nil, app_nil_r.
  - intros seg Hne. unfold w'. rewrite mem_measure_superposed by done.
    rewrite Hnone.
    destruct (decide (seg ∈ reached w0 [])) as [Hin|_].
    { unfold reached in Hin. by apply elem_of_nil in Hin. }
    by apply mem_initSuperposition_ne.
Qed.

(** X7: [entangle] replaces the stored peers: after two calls the stored
    list is the first four names of the second call, each cut to 63
    characters.  It writes [links] and [link_count] only: amplitudes,
    [measured], [created_at] and the timeout of the record stay, so the
    decoherence countdown is not restarted, and no other segment changes. *)
Theorem entangle_replaces_links q peers1 peers2 w :
  length (links (deref q w)) = 4%nat →
  let w' := entangle q peers2 (entangle q peers1 w) in
  stored_links (deref q w') = strncpy 63 <$> take 4 peers2
  ∧ amplitudes (deref q w') = amplitudes (deref q w)
  ∧ measured (deref q w') = measured (deref q w)
  ∧ created_at (deref q w') = created_at (deref q w)
  ∧ decohere_timeout_ms (deref q w') = decohere_timeout_ms (deref q w)
  ∧ task_id (deref q w') = task_id (deref q w)
  ∧ (∀ seg, seg ≠ state q → mem w' !!! seg = mem w !!! seg).
Proof.
  intros Hlen w'. split.
  - apply stored_links_entangle. rewrite deref_entangle. simpl.
    by rewrite copy_links_length.
  - unfold w'. rewrite !deref_entangle. repeat split; try done.
    intros seg Hne. by rewrite !mem_entangle_ne.
Qed.

End Readback.

(** ** GHZ groups collapse together *)

Section GroupCorrelation.
Context {D : Type} `{Double D}.
Implicit Types (q : Qubit) (w : World D) (s : QubitState D).

Lemma collect_peers_intro i j qubits k qk :
  qubits !! k = Some qk → i ≠ (j + k)%nat →
  shm_name qk ∈ collect_peers i j qubits.
Proof.
  revert j k. induction qubits as [|qj rest IH]; intros j k Hk Hne.
  - by rewrite lookup_nil in Hk.
  - simpl. destruct k as [|k]; simpl in Hk.
    + injection Hk as ->. rewrite decide_False by lia. apply list_elem_of_here.
    + assert (shm_name qk ∈ collect_peers i (S j) rest) as Hin
        by (apply (IH (S j) k); [done|lia]).
      case_decide; [done|by apply list_elem_of_further].
Qed.

Lemma ghz_loop_open_peer clock qubits i todo w p :
  open_peer (ghz_loop clock qubits i todo w) p = open_peer w p.
Proof.
  revert i w. induction todo as [|qi todo IH]; intros i w; simpl; [done|].
  by rewrite IH.
Qed.

(** After the loop a member is in the equal superposition, stamped in its
    own iteration. *)
Lemma ghz_loop_member_record clock qubits i todo w j q :
  todo !! j = Some q → NoDup (state <$> todo) →
  let s := deref q (ghz_loop clock qubits i todo w) in
  measured s = 2
  ∧ amplitudes s = (ddiv d1 M_SQRT2, d0, ddiv d1 M_SQRT2, d0)
  ∧ created_at s = clock (i + j)%nat.
Proof.
  revert i w j. induction todo as [|qi todo IH]; intros i w j Hj Hnd.
  - by rewrite lookup_nil in Hj.
  - rewrite fmap_cons in Hnd. apply NoDup_cons in Hnd as [Hfresh Hnd].
    destruct j as [|j]; simpl in Hj.
    + injection Hj as ->. cbn [ghz_loop]. cbv zeta. unfold deref.
      rewrite ghz_loop_frame by done.
      fold (deref q
        (setState q (ddiv d1 M_SQRT2) d0 (ddiv d1 M_SQRT2) d0 (clock i)
           (entangle q (collect_peers i 0 qubits) w))).
      rewrite deref_setState, Nat.add_0_r. done.
    + cbn [ghz_loop].
      replace (i + S j)%nat with (S i + j)%nat by lia. by apply IH.
Qed.

(** X8: after [formGHZGroup] on two to five objects with distinct
    segments whose names resolve to their segments, every member is in the
    equal superposition, and measuring any one member collapses all: each
    member then reads as measured with the outcome that call returned, and
    its own [measure] returns it. *)
Theorem formGHZGroup_collapses_together clock qubits w i qi now u :
  (2 ≤ length qubits ≤ 5)%nat →
  NoDup (state <$> qubits) →
  world_links_ok w →
  (∀ k qk, qubits !! k = Some qk →
           open_peer w (strncpy 63 (shm_name qk)) = Some (state qk)) →
  qubits !! i = Some qi →
  let g := formGHZGroup clock qubits w in
  let r := fst (measure qi now u g) in
  let w' := snd (measure qi now u g) in
  (∀ j qj, qubits !! j = Some qj →
           isMeasured qj g = false
           ∧ amplitudes (deref qj g)
             = (ddiv d1 M_SQRT2, d0, ddiv d1 M_SQRT2, d0))
  ∧ (r = 0 ∨ r = 1)
  ∧ (∀ j qj, qubits !! j = Some qj →
             isMeasured qj w' = true
             ∧ getMeasurement qj w' = r
             ∧ ∀ now2 u2, measure qj now2 u2 w' = (r, w')).
Proof.
  intros Hn Hnd Hw Hnames Hi g r w'.
  assert (g = ghz_loop clock qubits 0 qubits w) as Hg.
  { unfold g, formGHZGroup.
    destruct (length qubits <? 2)%nat eqn:E1; [apply Nat.ltb_lt in E1; lia|].
    destruct (5 <? length qubits)%nat eqn:E2; [apply Nat.ltb_lt in E2; lia|].
    done. }
  assert (∀ j qj, qubits !! j = Some qj →
            measured (deref qj g) = 2
            ∧ amplitudes (deref qj g)
              = (ddiv d1 M_SQRT2, d0, ddiv d1 M_SQRT2, d0)) as Hsup.
  { intros j qj Hj. rewrite Hg.
    destruct (ghz_loop_member_record clock qubits 0 qubits w j qj Hj Hnd)
      as (Hm & Ha & _). done. }
  split.
  { intros j qj Hj. destruct (Hsup j qj Hj) as [Hm Ha].
    split; [unfold isMeasured; by rewrite Hm|done]. }
  destruct (Hsup i qi Hi) as [Hmi _].
  assert (∀ j qj, qubits !! j = Some qj →
            measured (deref qj w') = r) as Hall.
  { intros j qj Hj. destruct (decide (j = i)) as [->|Hji].
    - rewrite Hi in Hj. injection Hj as <-. apply measured_after_measure.
    - apply (measured_peer_after_measure qi qj now u g
               (strncpy 63 (shm_name qj))); [done| |].
      + unfold g.
        rewrite (formGHZGroup_member clock qubits w i qi) by done.
        apply list_elem_of_fmap_2.
        apply (collect_peers_intro i 0 qubits j qj); [done|simpl; lia].
      + rewrite Hg, ghz_loop_open_peer. by apply (Hnames j). }
  assert (r = 0 ∨ r = 1) as Hbit.
  { unfold r. rewrite (measure_superposed_unfold qi now u g Hmi).
    apply bernoulli_bit. }
  split; [done|].
  intros j qj Hj. specialize (Hall j qj Hj).
  unfold isMeasured, getMeasurement. rewrite Hall.
  split; [apply negb_true_iff, Z.eqb_neq; lia|]. split; [done|].
  intros now2 u2. rewrite measure_collapsed by (rewrite Hall; lia).
  by rewrite Hall.
Qed.

End GroupCorrelation.

(** ** Peer names in the 64-byte slots *)

(** No character of the string is NUL. *)
Fixpoint nul_free (s : string) : bool :=
  match s with
  | EmptyString => true
  | String c rest => negb (Ascii.eqb c Ascii.zero) && nul_free rest
  end.

(** A name [strncpy] copies whole: at most 63 characters, none of them NUL. *)
Definition fits_slot (s : string) : Prop :=
  (String.length s ≤ 63)%nat ∧ nul_free s = true.

Lemma fits_slot_empty : fits_slot EmptyString.
Proof. split; [simpl; lia|done]. Qed.

Lemma strncpy_length n src : (String.length (strncpy n src) ≤ n)%nat.
Proof.
  revert src. induction n as [|n IH]; intros [|c rest]; simpl; try lia.
  destruct (Ascii.eqb c Ascii.zero); simpl; [lia|].
  specialize (IH rest). lia.
Qed.

Lemma strncpy_nul_free n src : nul_free (strncpy n src) = true.
Proof.
  revert src. induction n as [|n IH]; intros [|c rest]; simpl; try done.
  destruct (Ascii.eqb c Ascii.zero) eqn:E; simpl; [done|].
  by rewrite E, IH.
Qed.

Lemma strncpy_whole n src :
  (String.length src ≤ n)%nat → nul_free src = true → strncpy n src = src.
Proof.
  revert src. induction n as [|n IH]; intros [|c rest] Hlen Hnul;
    simpl in *; try done; try lia.
  apply andb_true_iff in Hnul as [Hc Hrest].
  apply negb_true_iff in Hc. rewrite Hc. f_equal. apply IH; [lia|done].
Qed.

Lemma strncpy_fixed_iff src : strncpy 63 src = src ↔ fits_slot src.
Proof.
  split.
  - intros Heq. split.
    + rewrite <- Heq. apply strncpy_length.
    + rewrite <- Heq. apply strncpy_nul_free.
  - intros [Hlen Hnul]. by apply strncpy_whole.
Qed.

#[local] Arguments strncpy : simpl never.

Section Names.
Context {D : Type} `{Double D}.
Implicit Types (q : Qubit) (w : World D) (s : QubitState D).

(** X9: [entangle] followed by a read of the stored peers is the identity
    on lists of at most four names that each fit a slot (at most 63
    characters, no NUL); for any list, what it stores fits the slots: a
    longer name is stored as its first 63 characters and a name with a NUL
    as the part before it. *)
Theorem entangle_stores_fitting_names q peers w :
  length (links (deref q w)) = 4%nat →
  let stored := stored_links (deref q (entangle q peers w)) in
  Forall fits_slot stored
  ∧ ((length peers ≤ 4)%nat → Forall fits_slot peers → stored = peers).
Proof.
  intros Hlen stored. unfold stored.
  rewrite stored_links_entangle by done. split.
  - apply Forall_fmap, Forall_forall. intros p _. simpl.
    split; [apply strncpy_length|apply strncpy_nul_free].
  - intros Hfour Hfit. rewrite take_ge by done.
    induction Hfit as [|p ps [Hp1 Hp2] _ IH]; [done|].
    rewrite fmap_cons, strncpy_whole by done. f_equal.
    apply IH. simpl in Hfour. lia.
Qed.

(** *** What every reachable record satisfies *)

(** [measured] is one of the three values of the flag, and every link slot
    holds a string that fits it. *)
Definition record_ok s : Prop :=
  (measured s = 0 ∨ measured s = 1 ∨ measured s = 2)
  ∧ Forall fits_slot (links s).

Definition world_ok w : Prop := ∀ seg, record_ok (mem w !!! seg).

Lemma record_ok_zero : record_ok (zero_state (D := D)).
Proof.
  split; [by left|]. simpl.
  repeat (constructor; [apply fits_slot_empty|]). constructor.
Qed.

Lemma record_ok_bit r s :
  r = 0 ∨ r = 1 ∨ r = 2 → record_ok s → record_ok (set_measured r s).
Proof. intros Hr [_ Hl]. by split. Qed.

Lemma record_ok_collapse r s : record_ok s → record_ok (collapse r s).
Proof. intros Hs. unfold collapse. by destruct (r =? 0). Qed.

Lemma bernoulli_flag (p u : D) :
  bernoulli p u = 0 ∨ bernoulli p u = 1 ∨ bernoulli p u = 2.
Proof. destruct (bernoulli_bit p u); auto. Qed.

Lemma world_ok_store q s w : world_ok w → record_ok s → world_ok (store q s w).
Proof.
  intros Hw Hs seg. rewrite mem_store. case_decide; [done|apply Hw].
Qed.

Lemma world_ok_modify q f w :
  world_ok w → (∀ s, record_ok s → record_ok (f s)) → world_ok (modify q f w).
Proof. intros Hw Hf. apply world_ok_store; [done|]. apply Hf, Hw. Qed.

Lemma world_ok_propagate q r w :
  r = 0 ∨ r = 1 ∨ r = 2 → world_ok w → world_ok (propagateToLinks q r w).
Proof.
  intros Hr Hw seg. rewrite propagateToLinks_mem.
  case_decide; [apply record_ok_bit; [done|apply Hw]|apply Hw].
Qed.

Lemma copy_links_fits i peers (l : list string) :
  Forall fits_slot l → Forall fits_slot (copy_links i peers l).
Proof.
  revert i l. induction peers as [|p ps IH]; intros i l Hl; simpl; [done|].
  apply IH. apply Forall_insert; [done|].
  split; [apply strncpy_length|apply strncpy_nul_free].
Qed.

Lemma world_ok_entangle q peers w : world_ok w → world_ok (entangle q peers w).
Proof.
  intros Hw. unfold entangle.
  apply world_ok_modify; [apply world_ok_modify; [done|]|].
  - intros s [Hm Hl]. split; [done|]. simpl. by apply copy_links_fits.
  - by intros s [Hm Hl].
Qed.

Lemma world_ok_setState q ar ai br bi now w :
  world_ok w → world_ok (setState q ar ai br bi now w).
Proof.
  intros Hw. unfold setState, updateTimestamp.
  apply world_ok_modify; [apply world_ok_modify; [done|]|].
  - intros s [_ Hl]. split; [by right; right|done].
  - by intros s [Hm Hl].
Qed.

Lemma world_ok_ghz_loop clock qubits i todo w :
  world_ok w → world_ok (ghz_loop clock qubits i todo w).
Proof.
  revert i w. induction todo as [|qi todo IH]; intros i w Hw; simpl; [done|].
  apply IH. by apply world_ok_setState, world_ok_entangle.
Qed.

Lemma step_world_ok w w' : step w w' → world_ok w → world_ok w'.
Proof.
  intros Hstep Hw. destruct Hstep as
    [name tid timeout now w q w' Hnew | q now w _ | q now u w _
    | q gate now w _ | q peers w _ | q ar ai br bi now w _ | q now u w _
    | clock qubits w _ | name w].
  - unfold Qubit_new in Hnew.
    assert (∀ q0 w0, world_ok w0 → world_ok (initHeader q0 now w0)) as Hinit.
    { intros q0 w0 Hw0. unfold initHeader, updateTimestamp.
      destruct (negb _); [|done].
      apply world_ok_modify; [apply world_ok_modify|]; try by intros s [? ?].
      apply world_ok_store; [done|apply record_ok_zero]. }
    destruct (openOrCreate name w) as [[seg w1]|] eqn:Hopen; [|done].
    injection Hnew as <- <-. apply Hinit.
    destruct (openOrCreate_cases name w seg w1 Hopen)
      as (_ & [[_ ->] | (_ & -> & k & _ & ->)]); [done|].
    intros seg. simpl.
    destruct (decide (seg = fresh (dom (mem w)))) as [->|Hne].
    + rewrite lookup_total_insert_eq. apply record_ok_zero.
    + rewrite lookup_total_insert_ne by done. apply Hw.
  - unfold initSuperposition, updateTimestamp, resetLinks.
    apply world_ok_modify; [apply world_ok_modify; [apply world_ok_modify|]|];
      try done.
    + intros s [_ Hl]. split; [by right; right|done].
    + intros s [Hm Hl]. split; [done|]. simpl.
      repeat (apply Forall_insert; [|apply fits_slot_empty]). done.
  - unfold measure. destruct (negb (measured (deref q w) =? 2)); [done|].
    simpl. unfold updateTimestamp.
    apply world_ok_modify; [|by intros s [? ?]].
    apply world_ok_propagate; [apply bernoulli_flag|].
    apply world_ok_modify; [apply world_ok_modify; [done|]|].
    + intros s Hs. apply record_ok_bit; [apply bernoulli_flag|done].
    + intros s Hs. by apply record_ok_collapse.
  - unfold applyGate, updateTimestamp.
    destruct (negb (measured (deref q w) =? 2)); [done|].
    apply world_ok_modify; [|by intros s [? ?]].
    destruct (Ascii.eqb gate "H");
      [apply world_ok_modify; [done|by intros s [? ?]]|].
    destruct (Ascii.eqb gate "X");
      [apply world_ok_modify; [done|by intros s [? ?]]|].
    destruct (Ascii.eqb gate "Z");
      [apply world_ok_modify; [done|by intros s [? ?]]|done].
  - by apply world_ok_entangle.
  - by apply world_ok_setState.
  - unfold decohere_tick. destruct (_ && _); [|done].
    rewrite deref_modify.
    apply world_ok_propagate; [apply bernoulli_flag|].
    apply world_ok_modify; [done|].
    intros s Hs. apply record_ok_bit; [apply bernoulli_flag|done].
  - unfold formGHZGroup. destruct (_ || _); [done|].
    by apply world_ok_ghz_loop.
  - intros seg. rewrite unlink_shm_mem. apply Hw.
Qed.

Lemma reachable_world_ok w : reachable w → world_ok w.
Proof.
  unfold reachable. revert w. apply (rtc_ind_r world_ok empty_world).
  - intros seg. unfold empty_world; simpl. rewrite lookup_total_empty.
    apply record_ok_zero.
  - intros w1 w2 _ Hstep IH. by eapply step_world_ok.
Qed.

(** X10: in every world the operations can reach, the flag of every
    register is 0, 1 or 2: [getMeasurement] returns one of these, and
    [isMeasured] holds exactly when it returns 0 or 1. *)
Theorem reachable_flag_is_tristate q w :
  reachable w →
  (getMeasurement q w = 0 ∨ getMeasurement q w = 1 ∨ getMeasurement q w = 2)
  ∧ (isMeasured q w = true
     ↔ getMeasurement q w = 0 ∨ getMeasurement q w = 1).
Proof.
  intros Hreach.
  destruct (reachable_world_ok w Hreach (state q)) as [Hflag _].
  fold (deref q w) in Hflag. unfold getMeasurement, isMeasured.
  split; [done|]. rewrite negb_true_iff, Z.eqb_neq. lia.
Qed.

(** X11: in every world the operations can reach, every link slot of every
    record, stored or stale, holds at most 63 characters and no NUL: it
    fits its 64-byte buffer with the terminator, and the four-slot array
    keeps its length. *)
Theorem reachable_links_fit_slots w seg :
  reachable w →
  length (links (mem w !!! seg)) = 4%nat
  ∧ Forall fits_slot (links (mem w !!! seg)).
Proof.
  intros Hreach. split.
  - apply (reachable_links_ok w Hreach seg).
  - apply (reachable_world_ok w Hreach seg).
Qed.

End Names.

(** ** The decoherence countdown *)

Section Countdown.
Context {D : Type} `{Double D}.
Implicit Types (q : Qubit) (w : World D) (s : QubitState D).

Lemma sub64_no_wrap now t : 0 ≤ t → t ≤ now → now < 2 ^ 64 → sub64 now t = now - t.
Proof. intros H0 H1 H2. unfold sub64. apply Z.mod_small. lia. Qed.

Lemma sub64_wrap now t :
  0 ≤ now → now < t → t < 2 ^ 64 → sub64 now t = now - t + 2 ^ 64.
Proof.
  intros H0 H1 H2. unfold sub64.
  rewrite <- (Z.mod_add (now - t) 1 (2 ^ 64)) by lia.
  apply Z.mod_small. lia.
Qed.

Lemma decohere_tick_idle q now u w :
  fires q now w = false → decohere_tick q now u w = w.
Proof. unfold fires, decohere_tick. by intros ->. Qed.

Lemma decohere_tick_collapses q now u w :
  fires q now w = true → isMeasured q (decohere_tick q now u w) = true.
Proof.
  intros Hf. destruct (decohere_tick_fired q now u w Hf) as (Hrec & _).
  unfold isMeasured. rewrite Hrec. simpl.
  destruct (bernoulli_bit (norm (beta_real (deref q w)) (beta_imag (deref q w))) u)
    as [-> | ->]; done.
Qed.

(** A superposed record stamped at [t0] with the timeout [timeout]. *)
Definition stamped (seg : nat) (t0 timeout : Z) w : Prop :=
  measured (mem w !!! seg) = 2
  ∧ created_at (mem w !!! seg) = t0
  ∧ decohere_timeout_ms (mem w !!! seg) = timeout.

Lemma stamped_fires q t0 timeout now w :
  stamped (state q) t0 timeout w → 0 ≤ t0 → t0 ≤ now → now < 2 ^ 64 →
  fires q now w = (now - t0 >? timeout).
Proof.
  intros (Hm & Hc & Ht) H0 H1 H2. unfold fires, deref.
  rewrite Hm, Hc, Ht, sub64_no_wrap by done. done.
Qed.

Lemma stamped_setState q ar ai br bi t0 w :
  stamped (state q) t0 (decohere_timeout q) (setState q ar ai br bi t0 w).
Proof.
  unfold stamped. fold (deref q (setState q ar ai br bi t0 w)).
  by rewrite deref_setState.
Qed.

Lemma stamped_initSuperposition q t0 w :
  stamped (state q) t0 (decohere_timeout q) (initSuperposition q t0 w).
Proof.
  unfold stamped. fold (deref q (initSuperposition q t0 w)).
  by rewrite deref_initSuperposition.
Qed.

Lemma stamped_applyGate q gate t0 w :
  measured (deref q w) = 2 →
  stamped (state q) t0 (decohere_timeout q) (applyGate q gate t0 w).
Proof.
  intros Hsup. unfold stamped. fold (deref q (applyGate q gate t0 w)).
  rewrite deref_applyGate_superposed by done. simpl.
  by rewrite gate_case_measured.
Qed.

(** X12: [setState], [initSuperposition] and [applyGate] on a superposed
    register (an unknown gate included) restart the countdown: a pass of
    the thread at clock [now], with [t0 <= now], leaves the register
    superposed and the world unchanged while [now - t0] does not exceed the
    object's timeout, and collapses the register once it does. *)
Theorem stamp_restarts_countdown q t0 now u w ar ai br bi gate :
  0 ≤ t0 → t0 ≤ now → now < 2 ^ 64 →
  let within := now - t0 ≤ decohere_timeout q in
  let after (w0 : World D) :=
    isMeasured q w0 = false
    ∧ (within → decohere_tick q now u w0 = w0)
    ∧ (¬ within → isMeasured q (decohere_tick q now u w0) = true) in
  after (setState q ar ai br bi t0 w)
  ∧ after (initSuperposition q t0 w)
  ∧ (measured (deref q w) = 2 → after (applyGate q gate t0 w)).
Proof.
  intros H0 H1 H2 within after.
  assert (∀ w0, stamped (state q) t0 (decohere_timeout q) w0 → after w0)
    as Hafter.
  { intros w0 Hst. unfold after, within.
    pose proof (stamped_fires q t0 _ now w0 Hst H0 H1 H2) as Hf.
    destruct Hst as (Hm & _).
    split; [unfold isMeasured, deref; by rewrite Hm|]. split.
    - intros Hin. apply decohere_tick_idle. rewrite Hf.
      rewrite Z.gtb_ltb. apply Z.ltb_ge. lia.
    - intros Hout. apply decohere_tick_collapses. rewrite Hf.
      rewrite Z.gtb_ltb. apply Z.ltb_lt. lia. }
  split; [apply Hafter, stamped_setState|].
  split; [apply Hafter, stamped_initSuperposition|].
  intros Hsup. by apply Hafter, stamped_applyGate.
Qed.

(** X13: decoherence collapses a register once.  After a pass that fired,
    the register reads as measured, and every later pass, by the thread of
    any object that maps the segment, changes nothing and opens no peer. *)
Theorem decoherence_fires_once q now u w :
  fires q now w = true →
  let w1 := decohere_tick q now u w in
  isMeasured q w1 = true
  ∧ ∀ q2 now2 u2, state q2 = state q → decohere_tick q2 now2 u2 w1 = w1.
Proof.
  intros Hf w1. pose proof (decohere_tick_collapses q now u w Hf) as Hm.
  fold w1 in Hm. split; [done|].
  intros q2 now2 u2 Hq. apply decohere_tick_idle.
  unfold fires, deref. rewrite Hq. fold (deref q w1).
  unfold isMeasured in Hm. apply negb_true_iff in Hm. by rewrite Hm.
Qed.

(** X14: the elapsed time is an unsigned difference.  A superposed record
    whose [created_at] lies ahead of the clock reading makes the difference
    wrap around, and the pass collapses the register at once unless the
    stored timeout is as large as the wrapped value. *)
Theorem stamp_ahead_of_clock_fires q now u w :
  measured (deref q w) = 2 →
  0 ≤ now → now < created_at (deref q w) → created_at (deref q w) < 2 ^ 64 →
  decohere_timeout_ms (deref q w) < 2 ^ 64 - (created_at (deref q w) - now) →
  fires q now w = true
  ∧ isMeasured q (decohere_tick q now u w) = true.
Proof.
  intros Hsup H0 H1 H2 Ht.
  assert (fires q now w = true) as Hf.
  { unfold fires. rewrite Hsup, sub64_wrap by done.
    rewrite Z.gtb_ltb. apply Z.ltb_lt. lia. }
  split; [done|by apply decohere_tick_collapses].
Qed.

(** X15: the timeout in force is the one of the object that stamped the
    record last, not the one of the object whose thread runs: after
    [setState] through [q1], the thread of any [q2] on the same segment
    fires exactly when the elapsed time exceeds the timeout of [q1]. *)
Theorem shared_segment_uses_last_stamp q1 q2 ar ai br bi t0 now w :
  state q2 = state q1 →
  0 ≤ t0 → t0 ≤ now → now < 2 ^ 64 →
  fires q2 now (setState q1 ar ai br bi t0 w)
  = (now - t0 >? decohere_timeout q1).
Proof.
  intros Hq H0 H1 H2. apply stamped_fires; try done.
  rewrite Hq. apply stamped_setState.
Qed.

(** ** What the local methods leave alone *)

Lemma mem_applyGate_ne q gate now w seg :
  seg ≠ state q → mem (applyGate q gate now w) !!! seg = mem w !!! seg.
Proof.
  intros Hne. destruct (decide (measured (deref q w) = 2)) as [Hsup|Hcol].
  - rewrite applyGate_superposed by done. unfold updateTimestamp.
    rewrite mem_modify, decide_False by done.
    destruct (supported gate); [|done].
    by rewrite mem_modify, decide_False.
  - by rewrite applyGate_collapsed.
Qed.

Lemma applyGate_frame q gate now w :
  shm (applyGate q gate now w) = shm w
  ∧ unmappable (applyGate q gate now w) = unmappable w
  ∧ opens (applyGate q gate now w) = opens w.
Proof.
  destruct (decide (measured (deref q w) = 2)) as [Hsup|Hcol].
  - rewrite applyGate_superposed by done. by destruct (supported gate).
  - by rewrite applyGate_collapsed.
Qed.

(** X16: [setState], [applyGate], [entangle] and [initSuperposition] write
    the caller's own segment only: every other segment keeps its record,
    names keep their segments and no peer is opened.  Of the four only
    [applyGate] can write to standard error. *)
Theorem local_methods_stay_local q seg w ar ai br bi gate peers now :
  seg ≠ state q →
  let frame (w' : World D) :=
    mem w' !!! seg = mem w !!! seg ∧ shm w' = shm w ∧ opens w' = opens w in
  (frame (setState q ar ai br bi now w)
   ∧ cerr (setState q ar ai br bi now w) = cerr w)
  ∧ frame (applyGate q gate now w)
  ∧ (frame (entangle q peers w) ∧ cerr (entangle q peers w) = cerr w)
  ∧ (frame (initSuperposition q now w)
     ∧ cerr (initSuperposition q now w) = cerr w).
Proof.
  intros Hne frame. unfold frame.
  split; [by rewrite mem_setState_ne|].
  split.
  { destruct (applyGate_frame q gate now w) as (Hs & _ & Ho).
    by rewrite mem_applyGate_ne. }
  split; [by rewrite mem_entangle_ne|].
  by rewrite mem_initSuperposition_ne.
Qed.

End Countdown.

(** ** Gates and the outcome of a measurement *)

Lemma float_mul_opp_opp (x : float) : (- x * - x)%float = (x * x)%float.
Proof.
  apply Prim2SF_inj. rewrite !mul_spec, !opp_spec.
  destruct (Prim2SF x) as [sg| sg | | sg m e]; try reflexivity;
    by destruct sg.
Qed.

Lemma measure_after_applyGate {D : Type} `{Double D} (q : Qubit)
  (gate : Ascii.ascii) (t now : Z) (u : D) (w : World D) :
  measured (deref q w) = 2 →
  fst (measure q now u (applyGate q gate t w))
  = bernoulli (norm (beta_real (gate_case gate (deref q w)))
                    (beta_imag (gate_case gate (deref q w)))) u.
Proof.
  intros Hsup.
  rewrite measure_superposed_unfold by by apply applyGate_keeps_superposed.
  cbn [fst]. by rewrite deref_applyGate_superposed.
Qed.

(** X17: what a gate does to the outcome of the next [measure], in
    binary64 and for every superposed register and draw.  The outcome is 1
    exactly when the draw is below [beta_real^2 + beta_imag^2]; Z negates
    beta, and the squares are the same doubles, so after Z the same draw
    gives the same outcome; after X the outcome is decided by
    [alpha_real^2 + alpha_imag^2] instead; an unknown gate changes
    nothing about it. *)
Theorem gates_and_next_outcome (q : Qubit) (t now : Z) (u : float)
  (w : World float) :
  measured (deref q w) = 2 →
  let s := deref q w in
  let p0 := (alpha_real s * alpha_real s + alpha_imag s * alpha_imag s)%float in
  let p1 := (beta_real s * beta_real s + beta_imag s * beta_imag s)%float in
  fst (measure q now u w) = (if PrimFloat.ltb u p1 then 1 else 0)
  ∧ fst (measure q now u (applyGate q "Z" t w))
    = (if PrimFloat.ltb u p1 then 1 else 0)
  ∧ fst (measure q now u (applyGate q "X" t w))
    = (if PrimFloat.ltb u p0 then 1 else 0)
  ∧ (∀ gate, gate ≠ "H"%char → gate ≠ "X"%char → gate ≠ "Z"%char →
       fst (measure q now u (applyGate q gate t w))
       = (if PrimFloat.ltb u p1 then 1 else 0)).
Proof.
  intros Hsup s p0 p1.
  split; [by rewrite measure_superposed_unfold|].
  split.
  { rewrite measure_after_applyGate by done.
    unfold bernoulli, norm, gate_case; simpl. fold s.
    by rewrite !float_mul_opp_opp. }
  split; [by rewrite measure_after_applyGate|].
  intros gate HH HX HZ. rewrite measure_after_applyGate by done.
  rewrite gate_case_unsupported; [done|].
  apply unsupported_spec. done.
Qed.

(** ** Measuring a basis state *)

Lemma measure_after_setState {D : Type} `{Double D} (q : Qubit)
  (ar ai br bi u : D) (t0 now : Z) (w : World D) :
  fst (measure q now u (setState q ar ai br bi t0 w))
  = bernoulli (norm br bi) u.
Proof.
  rewrite measure_superposed_unfold by by rewrite deref_setState.
  by rewrite deref_setState.
Qed.

Lemma measure_after_X_setState {D : Type} `{Double D} (q : Qubit)
  (ar ai br bi u : D) (t0 t1 now : Z) (w : World D) :
  fst (measure q now u (applyGate q "X" t1 (setState q ar ai br bi t0 w)))
  = bernoulli (norm ar ai) u.
Proof.
  assert (measured (deref q (applyGate q "X" t1 (setState q ar ai br bi t0 w)))
          = 2) as Hsup
    by (apply applyGate_keeps_superposed; by rewrite deref_setState).
  rewrite (measure_superposed_unfold q now u _ Hsup). cbn [fst].
  by rewrite deref_applyGate_setState.
Qed.

Lemma norm_basis_binary64 :
  norm (D := float) d0 d0 = d0 ∧ norm (D := float) d1 d0 = d1.
Proof. split; vm_compute; reflexivity. Qed.

Lemma norm_basis_exact :
  norm (D := R) d0 d0 = d0 ∧ norm (D := R) d1 d0 = d1.
Proof. split; unfold norm; simpl; lra. Qed.

(** X19: a register set to the basis state (1,0,0,0) measures 0 and one
    set to (0,0,1,0) measures 1, for every draw [u] of the generator's range
    ([u < 0] false, [u < 1] true), in binary64 and over the reals alike;
    and X applied to (1,0,0,0) makes it measure 1. *)
Theorem basis_states_measure_surely :
  (∀ (q : Qubit) (u : float) (t0 t1 now : Z) (w : World float),
     dltb u d0 = false → dltb u d1 = true →
     fst (measure q now u (setState q d1 d0 d0 d0 t0 w)) = 0
     ∧ fst (measure q now u (setState q d0 d0 d1 d0 t0 w)) = 1
     ∧ fst (measure q now u
              (applyGate q "X" t1 (setState q d1 d0 d0 d0 t0 w))) = 1)
  ∧ (∀ (q : Qubit) (u : R) (t0 t1 now : Z) (w : World R),
       dltb u d0 = false → dltb u d1 = true →
       fst (measure q now u (setState q d1 d0 d0 d0 t0 w)) = 0
       ∧ fst (measure q now u (setState q d0 d0 d1 d0 t0 w)) = 1
       ∧ fst (measure q now u
                (applyGate q "X" t1 (setState q d1 d0 d0 d0 t0 w))) = 1).
Proof.
  split; intros q u t0 t1 now w Hlow Hhigh;
    rewrite !measure_after_setState, measure_after_X_setState.
  - destruct norm_basis_binary64 as [-> ->].
    unfold bernoulli. by rewrite Hlow, Hhigh.
  - destruct norm_basis_exact as [-> ->].
    unfold bernoulli. by rewrite Hlow, Hhigh.
Qed.

(** ** Names, keys and releasing a name *)

Lemma c_str_nul_free name : nul_free (c_str name) = true.
Proof. apply strncpy_nul_free. Qed.

Lemma c_str_fixed s : nul_free s = true → c_str s = s.
Proof. intros Hnul. by apply strncpy_whole. Qed.

Lemma c_str_cons c s :
  Ascii.eqb c Ascii.zero = false → c_str (String c s) = String c (c_str s).
Proof.
  intros E. unfold c_str.
  change (strncpy (String.length (String c s)) (String c s))
    with (if Ascii.eqb c Ascii.zero then EmptyString
          else String c (strncpy (String.length s) s)).
  by rewrite E.
Qed.

Lemma strip_slashes_nul_free s :
  nul_free s = true → nul_free (strip_slashes s) = true.
Proof.
  induction s as [|c rest IH]; [done|]. intros Hnul. simpl.
  destruct (Ascii.eqb c "/"); [|done].
  apply IH. simpl in Hnul. by apply andb_true_iff in Hnul as [_ ?].
Qed.

Lemma strip_slashes_fixed s : has_slash s = false → strip_slashes s = s.
Proof.
  destruct s as [|c rest]; [done|]. simpl.
  by intros [-> _]%orb_false_iff.
Qed.

Lemma shm_key_path name k :
  shm_key name = Some k
  ↔ shm_path name = Some k ∧ (String.length k ≤ NAME_MAX)%nat.
Proof.
  unfold shm_key. destruct (shm_path name) as [k0|].
  - destruct (String.length k0 <=? NAME_MAX)%nat eqn:Hlen.
    + apply Nat.leb_le in Hlen. split.
      * intros Heq. injection Heq as <-. by split.
      * by intros [Heq _].
    + apply Nat.leb_gt in Hlen. split; [done|].
      intros [Heq Hle]. injection Heq as <-. lia.
  - split; [done|]. by intros [Heq _].
Qed.

(** A key is the key of itself, and a leading slash does not change the
    key of a name. *)
Lemma shm_key_idem name k : shm_key name = Some k → shm_key k = Some k.
Proof.
  intros [Hpath Hlen]%shm_key_path. apply shm_key_path. split; [|done].
  revert Hpath. unfold shm_path. set (k0 := strip_slashes (c_str name)).
  destruct (_ || _) eqn:Hbad; [done|]. intros [= <-].
  assert (has_slash k0 = false) as Hslash.
  { apply orb_false_iff in Hbad as [[_ ?]%orb_false_iff _]. done. }
  assert (c_str k0 = k0) as ->
    by apply c_str_fixed, strip_slashes_nul_free, c_str_nul_free.
  rewrite (strip_slashes_fixed k0 Hslash). by rewrite Hbad.
Qed.

Lemma shm_path_slash name : shm_path (String "/" name) = shm_path name.
Proof. unfold shm_path. by rewrite c_str_cons. Qed.

Lemma shm_key_slash name : shm_key (String "/" name) = shm_key name.
Proof. unfold shm_key. by rewrite shm_path_slash. Qed.


Section Release.
Context {D : Type} `{Double D}.
Implicit Types (q : Qubit) (w : World D) (s : QubitState D).

(** Every bound name is a key: what [shm_open] with [O_CREAT] binds. *)
Definition canonical_world w : Prop :=
  ∀ k seg, shm w !! k = Some seg → shm_key k = Some k.

(** In such a world a name reaches what its key is bound to. *)
Lemma resolve_canonical w name :
  canonical_world w →
  resolve w name
  = match shm_key name with Some k => shm w !! k | None => None end.
Proof.
  intros Hw. unfold resolve.
  destruct (shm w !! name) as [seg|] eqn:Hraw; [|done].
  by rewrite (Hw name seg Hraw).
Qed.

Lemma canonical_same_names w w' :
  shm w' = shm w → canonical_world w → canonical_world w'.
Proof. intros Hshm Hw k seg. rewrite Hshm. apply Hw. Qed.

Lemma foldl_notify_shm r peers w : shm (foldl (notify r) w peers) = shm w.
Proof.
  revert w. induction peers as [|p ps IH]; intros w; [done|].
  cbn [foldl]. rewrite IH. unfold notify.
  by destruct (open_peer w p).
Qed.

Lemma measure_shm q now u w : shm (snd (measure q now u w)) = shm w.
Proof.
  unfold measure. destruct (negb _); [done|]. simpl.
  unfold propagateToLinks. by rewrite foldl_notify_shm.
Qed.

Lemma decohere_tick_shm q now u w : shm (decohere_tick q now u w) = shm w.
Proof.
  unfold decohere_tick. destruct (_ && _); [|done].
  unfold propagateToLinks. by rewrite foldl_notify_shm.
Qed.

Lemma ghz_loop_shm clock qubits i todo w :
  shm (ghz_loop clock qubits i todo w) = shm w.
Proof.
  revert i w. induction todo as [|qi todo IH]; intros i w; [done|].
  simpl. by rewrite IH.
Qed.

Lemma unlink_shm_shm name w :
  shm (unlink_shm name w) = shm w
  ∨ ∃ k, shm (unlink_shm name w) = delete k (shm w).
Proof.
  unfold unlink_shm, shm_unlink.
  destruct (shm w !! name); [right; by exists name|].
  destruct (shm_path name) as [k|]; [|by left].
  destruct (NAME_MAX <? String.length k)%nat; [by left|].
  destruct (shm w !! k); [right; by exists k|by left].
Qed.

Lemma step_canonical w w' : step w w' → canonical_world w → canonical_world w'.
Proof.
  intros Hstep Hw. destruct Hstep as
    [name tid timeout now w q w' Hnew | q now w _ | q now u w _
    | q gate now w _ | q peers w _ | q ar ai br bi now w _ | q now u w _
    | clock qubits w _ | name w].
  - unfold Qubit_new in Hnew.
    destruct (openOrCreate name w) as [[seg w1]|] eqn:Hopen; [|done].
    injection Hnew as <- <-.
    destruct (initHeader_frame (mkQubit name tid timeout seg) now w1)
      as (Hshm & _).
    apply (canonical_same_names w1); [done|].
    destruct (openOrCreate_cases name w seg w1 Hopen)
      as (_ & [[_ ->] | (_ & -> & k & Hkey & ->)]); [done|].
    intros k' seg'. simpl.
    destruct (decide (k = k')) as [<-|Hne].
    + intros _. by apply (shm_key_idem name).
    + rewrite lookup_insert_ne by done. apply Hw.
  - by apply (canonical_same_names w).
  - apply (canonical_same_names w); [apply measure_shm|done].
  - apply (canonical_same_names w); [apply applyGate_frame|done].
  - by apply (canonical_same_names w).
  - by apply (canonical_same_names w).
  - apply (canonical_same_names w); [apply decohere_tick_shm|done].
  - apply (canonical_same_names w); [|done].
    unfold formGHZGroup. destruct (_ || _); [done|]. apply ghz_loop_shm.
  - destruct (unlink_shm_shm name w) as [Hshm | [k Hshm]].
    + by apply (canonical_same_names w).
    + intros k' seg'. rewrite Hshm.
      intros [_ Hk']%lookup_delete_Some. by apply (Hw k' seg').
Qed.

Lemma reachable_canonical w : reachable w → canonical_world w.
Proof.
  unfold reachable. revert w. apply (rtc_ind_r canonical_world empty_world).
  - intros k seg. unfold empty_world; simpl. by rewrite lookup_empty.
  - intros w1 w2 _ Hstep IH. by eapply step_canonical.
Qed.




(** X18: a name is read as glibc reads it: leading slashes do not count,
    so in a world the operations can reach two names with one key are one
    object.  The constructor maps the same segment for both and leaves the
    same world (a second opening under another task id wipes the record
    the first one holds), and propagation reaches the same segment through
    either spelling. *)
Theorem spellings_share_object name1 name2 tid timeout now w :
  reachable w → shm_key name1 = shm_key name2 →
  open_peer w name1 = open_peer w name2
  ∧ open_peer w (String "/" name1) = open_peer w name1
  ∧ match Qubit_new name1 tid timeout now w with
    | Some (q1, w1) =>
        Qubit_new name2 tid timeout now w
        = Some (mkQubit name2 tid timeout (state q1), w1)
    | None => Qubit_new name2 tid timeout now w = None
    end.
Proof.
  intros Hreach Hkey. pose proof (reachable_canonical w Hreach) as Hw.
  assert (resolve w name1 = resolve w name2) as Hres
    by by rewrite !(resolve_canonical w _ Hw), Hkey.
  split; [unfold open_peer; by rewrite Hres|].
  split.
  { unfold open_peer.
    by rewrite !(resolve_canonical w _ Hw), shm_key_slash. }
  unfold Qubit_new, openOrCreate. rewrite <- Hres, <- Hkey.
  destruct (resolve w name1) as [seg|].
  - destruct (decide (seg ∈ unmappable w)); done.
  - destruct (shm_key name1) as [k|]; [|done]. cbn [unmappable].
    destruct (decide (fresh (dom (mem w)) ∈ unmappable w)); done.
Qed.

End Release.

(** ** The further properties on the Bell pair *)

Module Runs.
Import Scenario.

Ltac by_evaluation := vm_compute; reflexivity.
Ltac mmap_succeeds :=
  match goal with
  | |- ?seg ∉ ?failing =>
      change (seg ∉ (∅ : gset nat)); apply not_elem_of_empty
  end.

Lemma bell_links_ok : world_links_ok bell.
Proof. apply reachable_links_ok, bell_reachable. Qed.

Lemma bell_slots : length (links (deref qa bell)) = 4%nat.
Proof. by_evaluation. Qed.

Lemma bell_a_superposed : measured (deref qa bell) = 2.
Proof. by_evaluation. Qed.

Lemma Qubit_new_again_reuses_witness :
  Qubit_new "a" 1 500 0 empty_world = Some (qa, w_a)
  ∧ Qubit_new "a" 1 5000 7 w_a = Some (mkQubit "a" 1 5000 (state qa), w_a).
Proof.
  assert (Qubit_new (D := float) "a" 1 500 0 empty_world = Some (qa, w_a))
    as Hfirst by by_evaluation.
  split; [exact Hfirst|].
  exact (Qubit_new_again_reuses "a" 1 500 0 empty_world qa w_a Hfirst 5000 7).
Defined.

Lemma Qubit_new_other_owner_resets_witness :
  shm bell !! "a"%string = Some 0%nat
  ∧ task_id (mem bell !!! 0%nat) ≠ 2
  ∧ getMeasurement (mkQubit "a" 2 500 0)
      (store (mkQubit "a" 2 500 0) (stamped_zero 2 600 500) bell) = 0.
Proof.
  assert (shm bell !! "a"%string = Some 0%nat) as Hname by by_evaluation.
  assert (0%nat ∉ unmappable bell) as Hmap by mmap_succeeds.
  assert (task_id (mem bell !!! 0%nat) ≠ 2) as Hother by (vm_compute; lia).
  split; [exact Hname|]. split; [exact Hother|].
  destruct (Qubit_new_other_owner_resets "a" 2 500 600 bell 0%nat
              Hname Hmap Hother) as (_ & _ & _ & Hzero & _).
  exact Hzero.
Defined.


Lemma measure_forces_peer_outcome_witness :
  measured (deref qa bell) = 2
  ∧ open_peer bell "b" = Some (state qb)
  ∧ getMeasurement qb measured_a = fst (measure qa 100 u bell).
Proof.
  assert (open_peer bell "b" = Some (state qb)) as Hopen by by_evaluation.
  assert ("b"%string ∈ stored_links (deref qa bell)) as Hin.
  { assert (stored_links (deref qa bell) = ["b"%string]) as ->
      by by_evaluation.
    apply list_elem_of_here. }
  split; [exact bell_a_superposed|]. split; [exact Hopen|].
  destruct (measure_forces_peer_outcome qa qb 100 u bell "b"
              bell_a_superposed Hin Hopen) as (_ & _ & Hsame & _).
  exact Hsame.
Defined.

Lemma initSuperposition_forgets_peers_witness :
  length (links (deref qa bell)) = 4%nat
  ∧ opens (snd (measure qa 100 u (initSuperposition qa 50 bell))) = opens bell.
Proof.
  split; [exact bell_slots|].
  destruct (initSuperposition_forgets_peers qa 50 100 u bell bell_slots)
    as (_ & _ & _ & _ & _ & Hopens & _).
  exact Hopens.
Defined.

Lemma entangle_replaces_links_witness :
  length (links (deref qa bell)) = 4%nat
  ∧ stored_links
      (deref qa (entangle qa ["c"; "d"; "e"; "f"; "g"]%string
                   (entangle qa ["b"%string] bell)))
    = strncpy 63 <$> take 4 ["c"; "d"; "e"; "f"; "g"]%string.
Proof.
  split; [exact bell_slots|].
  destruct (entangle_replaces_links qa ["b"%string]
              ["c"; "d"; "e"; "f"; "g"]%string bell bell_slots)
    as (Hstored & _).
  exact Hstored.
Defined.

Lemma formGHZGroup_collapses_together_witness :
  (2 ≤ length [qa; qb] ≤ 5)%nat
  ∧ getMeasurement qb
      (snd (measure qa 100 u (formGHZGroup (fun _ => 0) [qa; qb] bell)))
    = fst (measure qa 100 u (formGHZGroup (fun _ => 0) [qa; qb] bell)).
Proof.
  assert (2 ≤ length [qa; qb] ≤ 5)%nat as Hsize by (simpl; lia).
  assert (NoDup (state <$> [qa; qb])) as Hseg by (vm_compute; compute_done).
  assert (∀ k qk, [qa; qb] !! k = Some qk →
            open_peer bell (strncpy 63 (shm_name qk)) = Some (state qk))
    as Hnames.
  { intros [|[|k]] qk Hk; simpl in Hk; [| |discriminate Hk];
      injection Hk as <-; by_evaluation. }
  split; [exact Hsize|].
  destruct (formGHZGroup_collapses_together (fun _ => 0) [qa; qb] bell
              0%nat qa 100 u Hsize Hseg bell_links_ok Hnames eq_refl)
    as (_ & _ & Hall).
  destruct (Hall 1%nat qb eq_refl) as (_ & Hsame & _).
  exact Hsame.
Defined.

Lemma entangle_stores_fitting_names_witness :
  length (links (deref qa bell)) = 4%nat
  ∧ Forall fits_slot ["b"%string]
  ∧ stored_links (deref qa (entangle qa ["b"%string] bell)) = ["b"%string].
Proof.
  assert (Forall fits_slot ["b"%string]) as Hfit.
  { constructor; [|constructor]. split; [simpl; lia|reflexivity]. }
  split; [exact bell_slots|]. split; [exact Hfit|].
  destruct (entangle_stores_fitting_names qa ["b"%string] bell bell_slots)
    as [_ Hround].
  apply Hround; [simpl; lia|exact Hfit].
Defined.

Lemma reachable_flag_is_tristate_witness :
  getMeasurement qa bell = 0 ∨ getMeasurement qa bell = 1
  ∨ getMeasurement qa bell = 2.
Proof.
  destruct (reachable_flag_is_tristate qa bell bell_reachable) as [Hflag _].
  exact Hflag.
Defined.

Lemma reachable_links_fit_slots_witness :
  Forall fits_slot (links (mem bell !!! 0%nat)).
Proof.
  destruct (reachable_links_fit_slots bell 0%nat bell_reachable) as [_ Hfit].
  exact Hfit.
Defined.

Lemma stamp_restarts_countdown_witness :
  0 ≤ 20 ∧ 20 ≤ 300 ∧ 300 < 2 ^ 64
  ∧ decohere_tick qa 300 u (setState qa d1 d0 d0 d0 20 bell)
    = setState qa d1 d0 d0 d0 20 bell.
Proof.
  assert (0 ≤ 20) as H0 by lia.
  assert (20 ≤ 300) as H1 by lia.
  assert (300 < 2 ^ 64) as H2 by reflexivity.
  split; [exact H0|]. split; [exact H1|]. split; [exact H2|].
  destruct (stamp_restarts_countdown qa 20 300 u bell d1 d0 d0 d0 "H"
              H0 H1 H2) as ((_ & Hidle & _) & _).
  apply Hidle. simpl. lia.
Defined.

Lemma decoherence_fires_once_witness :
  fires qa 521 bell = true
  ∧ decohere_tick qa 900 u (decohere_tick qa 521 u bell)
    = decohere_tick qa 521 u bell.
Proof.
  assert (fires qa 521 bell = true) as Hf by by_evaluation.
  split; [exact Hf|].
  destruct (decoherence_fires_once qa 521 u bell Hf) as [_ Hlater].
  exact (Hlater qa 900 u eq_refl).
Defined.

Lemma stamp_ahead_of_clock_fires_witness :
  created_at (deref qa bell) = 20
  ∧ fires qa 5 bell = true.
Proof.
  assert (created_at (deref qa bell) = 20) as Hc by by_evaluation.
  split; [exact Hc|].
  assert (0 ≤ 5) as H0 by lia.
  assert (5 < created_at (deref qa bell)) as H1 by (rewrite Hc; lia).
  assert (created_at (deref qa bell) < 2 ^ 64) as H2
    by (rewrite Hc; reflexivity).
  assert (decohere_timeout_ms (deref qa bell)
          < 2 ^ 64 - (created_at (deref qa bell) - 5)) as Ht
    by (vm_compute; reflexivity).
  destruct (stamp_ahead_of_clock_fires qa 5 u bell bell_a_superposed
              H0 H1 H2 Ht) as [Hf _].
  exact Hf.
Defined.

Lemma shared_segment_uses_last_stamp_witness :
  state (mkQubit "a" 1 9999 0) = state qa
  ∧ fires (mkQubit "a" 1 9999 0) 600 (setState qa d1 d0 d0 d0 20 bell)
    = (600 - 20 >? decohere_timeout qa).
Proof.
  split; [reflexivity|].
  apply (shared_segment_uses_last_stamp qa (mkQubit "a" 1 9999 0)
           d1 d0 d0 d0 20 600 bell eq_refl); [lia|lia|reflexivity].
Defined.

Lemma local_methods_stay_local_witness :
  1%nat ≠ state qa
  ∧ mem (applyGate qa "H" 40 bell) !!! 1%nat = mem bell !!! 1%nat.
Proof.
  assert (1%nat ≠ state qa) as Hne by (simpl; lia).
  split; [exact Hne|].
  destruct (local_methods_stay_local qa 1%nat bell d1 d0 d0 d0 "H"
              ["b"%string] 40 Hne) as (_ & (Hgate & _) & _).
  exact Hgate.
Defined.

Lemma gates_and_next_outcome_witness :
  measured (deref qa bell) = 2
  ∧ fst (measure qa 100 u bell) = 1
  ∧ fst (measure qa 100 u (applyGate qa "Z" 40 bell)) = 1
  ∧ measured (deref qb bell) = 2
  ∧ fst (measure qb 100 u bell) = 0
  ∧ fst (measure qb 100 u (applyGate qb "X" 40 bell)) = 1.
Proof.
  assert (measured (deref qb bell) = 2) as Hb by by_evaluation.
  destruct (gates_and_next_outcome qa 40 100 u bell bell_a_superposed)
    as (Ha0 & HaZ & _).
  destruct (gates_and_next_outcome qb 40 100 u bell Hb) as (Hb0 & _ & HbX & _).
  split; [exact bell_a_superposed|].
  split; [etrans; [exact Ha0|by_evaluation]|].
  split; [etrans; [exact HaZ|by_evaluation]|].
  split; [exact Hb|].
  split; [etrans; [exact Hb0|by_evaluation]|].
  etrans; [exact HbX|by_evaluation].
Defined.

Lemma spellings_share_object_witness :
  shm_key "//a" = shm_key "a"
  ∧ open_peer bell "//a" = Some 0%nat
  ∧ Qubit_new "//a" 2 500 600 bell
    = Some (mkQubit "//a" 2 500 0,
            store qa (stamped_zero 2 600 500) bell).
Proof.
  assert (shm_key "//a" = shm_key "a") as Hkey by by_evaluation.
  assert (Qubit_new "a" 2 500 600 bell
          = Some (mkQubit "a" 2 500 0, store qa (stamped_zero 2 600 500) bell))
    as Hplain by by_evaluation.
  destruct (spellings_share_object "a" "//a" 2 500 600 bell bell_reachable
              (eq_sym Hkey)) as (Hpeer & _ & Hctor).
  rewrite Hplain in Hctor.
  split; [exact Hkey|].
  split; [etrans; [symmetry; exact Hpeer|by_evaluation]|].
  exact Hctor.
Defined.

Lemma basis_states_measure_surely_witness :
  dltb u d0 = false ∧ dltb u d1 = true
  ∧ fst (measure qa 100 u (setState qa d1 d0 d0 d0 20 bell)) = 0.
Proof.
  assert (dltb u d0 = false) as Hlow by reflexivity.
  assert (dltb u d1 = true) as Hhigh by reflexivity.
  split; [exact Hlow|]. split; [exact Hhigh|].
  destruct basis_states_measure_surely as [Hfloat _].
  destruct (Hfloat qa u 20 30 100 bell Hlow Hhigh) as (Hzero & _).
  exact Hzero.
Defined.


End Runs.
